(** * Word-search board generator: a shallow embedding of
      [src/generateWordsOnBoard.js] and the properties of its placement
      search.

    Conventions of the embedding.
    - JavaScript numbers are integers here ([Z]); the board dimensions and
      all loop counters of the source are integer valued.
    - A JavaScript string is a [string]; [word[i]] is a one-character string
      or [undefined], modelled as [option string] ([None] is [undefined]).
    - An array that is indexed and assigned by position (the board and its
      rows) is a finite map from indices to elements: reading a missing
      index gives [undefined], assigning to any index stores the element.
    - [Math.random()] reads the next sample of a tape of rationals in
      [[0, 1)]; the tape is threaded through every function that draws.
    - [throw] and engine-raised [TypeError]s are the [Throw] outcome. *)

From Stdlib Require Import ZArith String Ascii List Lia.
From stdpp Require Import base option list gmap strings.
From stdpp Require Import pretty.

Local Open Scope string_scope.
Local Open Scope list_scope.
Local Open Scope Z_scope.

(** ** JavaScript values as the entry point receives them *)

#[local] Unset Elimination Schemes.
Inductive jsval : Type :=
| JUndefined
| JNull
| JBool (b : bool)
| JNum (n : Z)
| JStr (s : string)
| JArr (elems : list jsval)
| JObj (props : list (string * jsval)).
#[local] Set Elimination Schemes.

(** [!v] is [negb (truthy v)]. *)
Definition truthy (v : jsval) : bool :=
  match v with
  | JUndefined | JNull => false
  | JBool b => b
  | JNum n => negb (n =? 0)%Z
  | JStr s => negb (String.eqb s "")
  | JArr _ | JObj _ => true
  end.

Fixpoint assoc (k : string) (props : list (string * jsval)) : jsval :=
  match props with
  | [] => JUndefined
  | (k', v) :: rest => if String.eqb k k' then v else assoc k rest
  end.

(** [v.k] for a [v] that is neither [undefined] nor [null] (every property
    read of the source on a caller-supplied value is guarded by a truthiness
    test of that value).  Only the properties the source reads are looked up:
    object fields, and no inherited ones. *)
Definition getProp (v : jsval) (k : string) : jsval :=
  match v with
  | JObj props => assoc k props
  | _ => JUndefined
  end.

Definition typeof_number (v : jsval) : bool :=
  match v with JNum _ => true | _ => false end.

Definition typeof_string (v : jsval) : bool :=
  match v with JStr _ => true | _ => false end.

Definition isArray (v : jsval) : bool :=
  match v with JArr _ => true | _ => false end.

(** ** Outcomes, exceptions and the random tape *)

Inductive exn : Type :=
| ErrBoardSize
    (* 'boardSize must be an object with numeric width and height properties' *)
| ErrWordsArray
    (* 'words must be an array' *)
| ErrAlignment
    (* 'alignment must have lines object and direction string' *)
| ErrBlockLength (word : jsval) (len : jsval)
    (* 'Word "<word>" has invalid length <len> for block mode. ...' *)
| TypeError
    (* raised by the engine: a property read on undefined or null *)
| OutsideModel.
    (* a [words] element that is not a string: not covered by the embedding *)

(** The errors [validateInputs] throws itself (the specification's
    ConfigurationError). *)
Definition isConfigurationError (e : exn) : bool :=
  match e with
  | ErrBoardSize | ErrWordsArray | ErrAlignment | ErrBlockLength _ _ => true
  | TypeError | OutsideModel => false
  end.

Inductive outcome (A : Type) : Type :=
| Return (a : A)
| Throw (e : exn).
Arguments Return {A} a.
Arguments Throw {A} e.

(** A sample [s] stands for the rational [s_num / (s_num + s_gap + 1)],
    which ranges over all of [[0, 1)]. *)
Record sample : Type := Sample { s_num : nat; s_gap : nat }.

Definition tape : Type := list sample.

(** A computation that may draw random numbers and may throw. *)
Definition M (A : Type) : Type := tape -> outcome (A * tape).

Definition ret {A} (a : A) : M A := fun t => Return (a, t).

Definition bind {A B} (f : A -> M B) (m : M A) : M B :=
  fun t => match m t with
           | Return (a, t') => f a t'
           | Throw e => Throw e
           end.

Definition raise {A} (e : exn) : M A := fun _ => Throw e.

Definition lift {A} (o : outcome A) : M A :=
  fun t => match o with Return a => Return (a, t) | Throw e => Throw e end.

(** [x ← m; f] and [m;; f] sequence two computations of [M]. *)
#[global] Instance M_ret : MRet M := @ret.
#[global] Instance M_bind : MBind M := @bind.

(** [Math.random()]: the next sample; an exhausted tape keeps giving 0. *)
Definition Math_random : M sample :=
  fun t => match t with
           | [] => Return (Sample 0 0, [])
           | s :: t' => Return (s, t')
           end.

(** [Math.floor(s * n)] for a sample [s] and a length [n]. *)
Definition floorTimes (s : sample) (n : nat) : nat :=
  Nat.div (s_num s * n) (s_num s + s_gap s + 1).

(** [s < 0.5]. *)
Definition belowHalf (s : sample) : bool :=
  Nat.ltb (2 * s_num s) (s_num s + s_gap s + 1).

(** ** Data model *)

Record Size : Type := mkSize { width : Z; height : Z }.

Record Lines : Type := mkLines {
  horizontal : bool;
  vertical : bool;
  diagonal : bool;
  bendsStraight : bool;
  bendsDiagonal : bool;
  block : bool
}.

Record Alignment : Type := mkAlignment { lines : Lines; direction : string }.

Record Position : Type := Pos { row : Z; col : Z }.

Record Placement : Type := mkPlacement {
  type : string;
  positions : list Position;
  blockDimensions : option Size
}.

(** A row is an array of cells, the board an array of rows. *)
Abbreviation Row := (gmap Z (option string)).
Abbreviation Board := (gmap Z (gmap Z (option string))).

(** [word.length] *)
Definition wlen (word : string) : Z := Z.of_nat (String.length word).

(** [word[index]] *)
Definition charAt (word : string) (index : Z) : option string :=
  if (index <? 0)%Z then None
  else match String.get (Z.to_nat index) word with
       | Some c => Some (String c EmptyString)
       | None => None
       end.

(** [for (let i = lo; i < hi; i++)] visits [range lo hi] in order. *)
Definition range (lo hi : Z) : list Z := seqZ lo (hi - lo).

(** ** Shape enumerator *)

Definition generateHorizontalPlacements (word : string) (boardSize : Size)
  : list Placement :=
  r ← range 0 (height boardSize);
  c ← range 0 (width boardSize - wlen word + 1);
  [ mkPlacement "horizontal"
      ((fun i => Pos r (c + i)) <$> range 0 (wlen word)) None ].

Definition generateVerticalPlacements (word : string) (boardSize : Size)
  : list Placement :=
  r ← range 0 (height boardSize - wlen word + 1);
  c ← range 0 (width boardSize);
  [ mkPlacement "vertical"
      ((fun i => Pos (r + i) c) <$> range 0 (wlen word)) None ].

Definition generateDiagonalPlacements (word : string) (boardSize : Size)
  : list Placement :=
  (r ← range 0 (height boardSize - wlen word + 1);
   c ← range 0 (width boardSize - wlen word + 1);
   [ mkPlacement "diagonal-down"
       ((fun i => Pos (r + i) (c + i)) <$> range 0 (wlen word)) None ])
  ++
  (r ← range 0 (height boardSize - wlen word + 1);
   c ← range (wlen word - 1) (width boardSize);
   [ mkPlacement "diagonal-up"
       ((fun i => Pos (r + i) (c - i)) <$> range 0 (wlen word)) None ]).

(** The positions of the two orientations of an L shape. *)
Definition bendHVPositions (word : string) (startRow startCol bendPoint : Z)
  : list Position :=
  ((fun i => Pos startRow (startCol + i)) <$> range 0 bendPoint)
  ++ ((fun i => Pos (startRow + (i - bendPoint + 1)) (startCol + bendPoint - 1))
        <$> range bendPoint (wlen word)).

Definition bendVHPositions (word : string) (startRow startCol bendPoint : Z)
  : list Position :=
  ((fun i => Pos (startRow + i) startCol) <$> range 0 bendPoint)
  ++ ((fun i => Pos (startRow + bendPoint - 1) (startCol + (i - bendPoint + 1)))
        <$> range bendPoint (wlen word)).

Definition generateBendStraightPlacements (word : string) (boardSize : Size)
  : list Placement :=
  startRow ← range 0 (height boardSize);
  startCol ← range 0 (width boardSize);
  bendPoint ← range 1 (wlen word);
  (if (startCol + bendPoint <? width boardSize)
      && (startRow + (wlen word - bendPoint) <? height boardSize)
   then [ mkPlacement "bend-straight-hv"
            (bendHVPositions word startRow startCol bendPoint) None ]
   else [])
  ++
  (if (startRow + bendPoint <? height boardSize)
      && (startCol + (wlen word - bendPoint) <? width boardSize)
   then [ mkPlacement "bend-straight-vh"
            (bendVHPositions word startRow startCol bendPoint) None ]
   else []).

Definition isValidDiagonalBend (startRow startCol bendPoint wordLength : Z)
    (boardSize : Size) (dir : string) : bool :=
  (0 <=? startRow) && (0 <=? startCol)
  && (startRow <? height boardSize) && (startCol <? width boardSize).

Definition generateDiagonalBendPositions
    (startRow startCol bendPoint wordLength : Z) (dir : string)
  : list Position :=
  [ Pos startRow startCol ].

Definition isValidPosition (pos : Position) (boardSize : Size) : bool :=
  (0 <=? row pos) && (row pos <? height boardSize)
  && (0 <=? col pos) && (col pos <? width boardSize).

Definition generateBendDiagonalPlacements (word : string) (boardSize : Size)
  : list Placement :=
  startRow ← range 0 (height boardSize);
  startCol ← range 0 (width boardSize);
  bendPoint ← range 1 (wlen word);
  if isValidDiagonalBend startRow startCol bendPoint (wlen word) boardSize
       "down-up"
  then
    let positions :=
      generateDiagonalBendPositions startRow startCol bendPoint (wlen word)
        "down-up" in
    if forallb (fun pos => isValidPosition pos boardSize) positions
    then [ mkPlacement "bend-diagonal-down-up" positions None ]
    else []
  else [].

Definition getValidBlockDimensions (wordLength : Z) : list Size :=
  (if wordLength =? 4 then [ mkSize 2 2 ] else [])
  ++ (if wordLength =? 9 then [ mkSize 3 3 ] else [])
  ++ (if wordLength =? 16 then [ mkSize 4 4 ] else [])
  ++ (if wordLength =? 6 then [ mkSize 2 3; mkSize 3 2 ] else [])
  ++ (if wordLength =? 8 then [ mkSize 2 4; mkSize 4 2 ] else [])
  ++ (if wordLength =? 10 then [ mkSize 2 5; mkSize 5 2 ] else [])
  ++ (if wordLength =? 12
      then [ mkSize 2 6; mkSize 6 2; mkSize 3 4; mkSize 4 3 ] else [])
  ++ (if wordLength =? 14 then [ mkSize 2 7; mkSize 7 2 ] else [])
  ++ (if wordLength =? 15 then [ mkSize 3 5; mkSize 5 3 ] else [])
  ++ (if wordLength =? 16 then [ mkSize 2 8; mkSize 8 2 ] else []).

(** The nested loop pushes a cell only while fewer than [wordLength] cells
    have been pushed. *)
Definition generateBlockPositions
    (startRow startCol blockWidth blockHeight wordLength : Z)
  : list Position :=
  foldl (fun positions r =>
           foldl (fun positions c =>
                    if Z.of_nat (length positions) <? wordLength
                    then positions ++ [ Pos (startRow + r) (startCol + c) ]
                    else positions)
                 positions (range 0 blockWidth))
        [] (range 0 blockHeight).

Definition generateBlockPlacements (word : string) (boardSize : Size)
  : list Placement :=
  let wordLength := wlen word in
  let validBlocks := getValidBlockDimensions wordLength in
  blk ← validBlocks;
  startRow ← range 0 (height boardSize - height blk + 1);
  startCol ← range 0 (width boardSize - width blk + 1);
  [ mkPlacement "block"
      (generateBlockPositions startRow startCol (width blk) (height blk)
         wordLength)
      (Some blk) ].

Definition generatePossiblePlacements (word : string) (alignment : Alignment)
    (boardSize : Size) : list Placement :=
  let lines := lines alignment in
  (if horizontal lines then generateHorizontalPlacements word boardSize else [])
  ++ (if vertical lines then generateVerticalPlacements word boardSize else [])
  ++ (if diagonal lines then generateDiagonalPlacements word boardSize else [])
  ++ (if bendsStraight lines
      then generateBendStraightPlacements word boardSize else [])
  ++ (if bendsDiagonal lines
      then generateBendDiagonalPlacements word boardSize else [])
  ++ (if block lines then generateBlockPlacements word boardSize else []).

(** ** Board store *)

(** [board[row] = []] for every row, then [board[row][col] = ''] for every
    column. *)
Definition createEmptyBoard (boardSize : Size) : Board :=
  foldl (fun (board : Board) r =>
           <[ r := foldl (fun (cells : Row) c => <[ c := Some "" ]> cells)
                         ∅ (range 0 (width boardSize)) ]> board)
        ∅ (range 0 (height boardSize)).

(** [board[pos.row][pos.col]]: a [TypeError] when [board[pos.row]] is
    [undefined], [undefined] when the row has no such column. *)
Definition readCell (board : Board) (pos : Position)
  : outcome (option string) :=
  match board !! row pos with
  | None => Throw TypeError
  | Some cells => Return (default None (cells !! col pos))
  end.

(** [board[pos.row][pos.col] = letter] *)
Definition writeCell (board : Board) (pos : Position) (letter : option string)
  : outcome Board :=
  match board !! row pos with
  | None => Throw TypeError
  | Some cells => Return (<[ row pos := <[ col pos := letter ]> cells ]> board)
  end.

(** [a !== b] on cells and letters. *)
Definition strictNe (a b : option string) : bool :=
  match a, b with
  | Some s, Some t => negb (String.eqb s t)
  | None, None => false
  | _, _ => true
  end.

(** ** Letter mapper *)

(** [chars.sort(() => Math.random() - 0.5)].  The order a sort produces under
    an inconsistent comparator is left to the engine; what is fixed is that
    the result is a permutation of [chars].  Here the permutation is drawn
    from the tape by repeated selection, so that every permutation is a
    possible result. *)
Fixpoint shuffle (fuel : nat) (chars : list ascii) : M (list ascii) :=
  match fuel with
  | O => mret []
  | S fuel' =>
      s ← Math_random;
      let i := floorTimes s (length chars) in
      match chars !! i with
      | Some c => rest ← shuffle fuel' (delete i chars); mret (c :: rest)
      | None => mret []
      end
  end.

Definition sortRandomly (chars : list ascii) : M (list ascii) :=
  shuffle (length chars) chars.

Definition getLetterForPosition (word : string) (index : Z)
    (direction : string) : M (option string) :=
  if String.eqb direction "forward" then
    mret (charAt word index)
  else if String.eqb direction "backward" then
    mret (charAt word (wlen word - 1 - index))
  else if String.eqb direction "forwardBackward" then
    s ← Math_random;
    mret (if belowHalf s then charAt word index
          else charAt word (wlen word - 1 - index))
  else if String.eqb direction "scatter" then
    shuffled ← sortRandomly (list_ascii_of_string word);
    let shuffledWord := string_of_list_ascii shuffled in
    mret (charAt shuffledWord index)
  else
    mret (charAt word index).

(** ** Placement engine *)

(** The loop of [canPlaceWord] from index [i] on, over the positions that
    remain. *)
Fixpoint canPlaceWord_from (i : Z) (board : Board) (word : string)
    (rest : list Position) (direction : string) : M bool :=
  match rest with
  | [] => mret true
  | pos :: rest' =>
      currentCell ← lift (readCell board pos);
      expectedLetter ← getLetterForPosition word i direction;
      if strictNe currentCell (Some "") && strictNe currentCell expectedLetter
      then mret false
      else canPlaceWord_from (i + 1) board word rest' direction
  end.

Definition canPlaceWord (board : Board) (word : string)
    (placement : Placement) (direction : string) : M bool :=
  canPlaceWord_from 0 board word (positions placement) direction.

(** The loop of [placeWord]; the board it returns is the board after the
    assignments. *)
Fixpoint placeWord_from (i : Z) (board : Board) (word : string)
    (rest : list Position) (direction : string) : M Board :=
  match rest with
  | [] => mret board
  | pos :: rest' =>
      letter ← getLetterForPosition word i direction;
      board' ← lift (writeCell board pos letter);
      placeWord_from (i + 1) board' word rest' direction
  end.

Definition placeWord (board : Board) (word : string) (placement : Placement)
    (direction : string) : M Board :=
  placeWord_from 0 board word (positions placement) direction.

Record PlacementResult : Type := mkResult {
  success : bool;
  reason : option string
}.

(** What one call of [placeWordOnBoard] leaves behind: the object it
    returns, the board after the call, and (not part of the JavaScript
    result) the placement it committed, if any. *)
Record Placed : Type := mkPlaced {
  result : PlacementResult;
  boardAfter : Board;
  committed : option Placement
}.

Definition maxAttempts : nat := 100.

(** The [while (attempts < maxAttempts)] loop with [remaining] iterations to
    go, that is at [attempts = maxAttempts - remaining]. *)
Fixpoint placeWordOnBoard_loop (remaining : nat) (board : Board)
    (word : string) (alignment : Alignment) (boardSize : Size) : M Placed :=
  match remaining with
  | O =>
      mret (mkPlaced
              (mkResult false
                 (Some "Could not find valid placement after maximum attempts"))
              board None)
  | S remaining' =>
      let placements := generatePossiblePlacements word alignment boardSize in
      if Nat.eqb (length placements) 0 then
        mret (mkPlaced (mkResult false (Some "No valid placements found"))
                board None)
      else
        s ← Math_random;
        match placements !! floorTimes s (length placements) with
        | None => raise TypeError
        | Some placement =>
            ok ← canPlaceWord board word placement (direction alignment);
            if ok : bool then
              board' ← placeWord board word placement (direction alignment);
              mret (mkPlaced (mkResult true None) board' (Some placement))
            else
              placeWordOnBoard_loop remaining' board word alignment boardSize
        end
  end.

Definition placeWordOnBoard (board : Board) (word : string)
    (alignment : Alignment) (boardSize : Size) : M Placed :=
  placeWordOnBoard_loop maxAttempts board word alignment boardSize.

(** ** Generator *)

(** What a completed call leaves behind: the board it returns, the lines
    written by [console.warn], and (not part of the JavaScript result) what
    happened to each word, in processing order. *)
Record Run : Type := mkRun {
  finalBoard : Board;
  warnings : list string;
  history : list (string * Placed)
}.

(** The [for (const word of words)] loop. *)
Fixpoint placeWords (board : Board) (words : list string)
    (alignment : Alignment) (boardSize : Size) : M Run :=
  match words with
  | [] => mret (mkRun board [] [])
  | word :: rest =>
      placementResult ← placeWordOnBoard board word alignment boardSize;
      run ← placeWords (boardAfter placementResult) rest alignment boardSize;
      mret (mkRun (finalBoard run)
              ((if success (result placementResult) then []
                else [ String.append "Could not place word: " word ])
               ++ warnings run)
              ((word, placementResult) :: history run))
  end.

(** [word.length] of an arbitrary element of [words]. *)
Definition lengthOf (word : jsval) : outcome jsval :=
  match word with
  | JStr s => Return (JNum (wlen s))
  | JArr elems => Return (JNum (Z.of_nat (length elems)))
  | JObj props => Return (assoc "length" props)
  | JBool _ | JNum _ => Return JUndefined
  | JUndefined | JNull => Throw TypeError
  end.

Definition invalidLengths : list Z := [3; 5; 7; 11; 13].

(** [invalidLengths.includes(len)] *)
Definition includes (lengths : list Z) (len : jsval) : bool :=
  match len with
  | JNum n => existsb (Z.eqb n) lengths
  | _ => false
  end.

(** The loop over [words] of the block-mode check. *)
Fixpoint checkBlockLengths (words : list jsval) : outcome unit :=
  match words with
  | [] => Return tt
  | word :: rest =>
      match lengthOf word with
      | Throw e => Throw e
      | Return len =>
          if includes invalidLengths len
          then Throw (ErrBlockLength word len)
          else checkBlockLengths rest
      end
  end.

Definition validateInputs (boardSize words alignment : jsval) : outcome unit :=
  if negb (truthy boardSize)
     || negb (typeof_number (getProp boardSize "width"))
     || negb (typeof_number (getProp boardSize "height"))
  then Throw ErrBoardSize
  else if negb (isArray words)
  then Throw ErrWordsArray
  else if negb (truthy alignment)
          || negb (truthy (getProp alignment "lines"))
          || negb (typeof_string (getProp alignment "direction"))
  then Throw ErrAlignment
  else if truthy (getProp (getProp alignment "lines") "block")
  then match words with
       | JArr elems => checkBlockLengths elems
       | _ => Return tt
       end
  else Return tt.

(** The typed views of validated arguments that the rest of the code reads:
    [boardSize.width] and [boardSize.height]; the truth value of each flag of
    [alignment.lines] and [alignment.direction]; the elements of [words],
    which the source documents as strings. *)
Definition toSize (boardSize : jsval) : option Size :=
  match getProp boardSize "width", getProp boardSize "height" with
  | JNum w, JNum h => Some (mkSize w h)
  | _, _ => None
  end.

Definition toAlignment (alignment : jsval) : option Alignment :=
  match getProp alignment "direction" with
  | JStr d =>
      let l := getProp alignment "lines" in
      Some (mkAlignment
              (mkLines (truthy (getProp l "horizontal"))
                       (truthy (getProp l "vertical"))
                       (truthy (getProp l "diagonal"))
                       (truthy (getProp l "bendsStraight"))
                       (truthy (getProp l "bendsDiagonal"))
                       (truthy (getProp l "block")))
              d)
  | _ => None
  end.

Definition toWord (word : jsval) : option string :=
  match word with JStr s => Some s | _ => None end.

Definition toWords (words : jsval) : option (list string) :=
  match words with
  | JArr elems => mapM toWord elems
  | _ => None
  end.

Definition generateWordsOnBoard (boardSize words alignment : jsval) : M Run :=
  lift (validateInputs boardSize words alignment);;
  match toSize boardSize, toWords words, toAlignment alignment with
  | Some boardSize', Some words', Some alignment' =>
      let board := createEmptyBoard boardSize' in
      placeWords board words' alignment' boardSize'
  | _, _, _ => raise OutsideModel
  end.

(** * Specification vocabulary *)

Definition onBoard (boardSize : Size) (pos : Position) : Prop :=
  0 ≤ row pos < height boardSize ∧ 0 ≤ col pos < width boardSize.

Definition placementOnBoard (boardSize : Size) (p : Placement) : Prop :=
  Forall (onBoard boardSize) (positions p).

(** [returns m Q]: on every tape [m] returns, without throwing, a value that
    satisfies [Q]. *)
Definition returns {A} (m : M A) (Q : A → Prop) : Prop :=
  ∀ t, ∃ a t', m t = Return (a, t') ∧ Q a.

(** The cell stored at row [r], column [c], when the board has that row and
    the row that column. *)
Definition cellAt (board : Board) (r c : Z) : option (option string) :=
  board !! r ≫= fun cells : Row => cells !! c.

(** The cells of the board are exactly those of the rectangle
    [[0, height) × [0, width)]. *)
Definition wellShaped (boardSize : Size) (board : Board) : Prop :=
  ∀ r c, is_Some (cellAt board r c)
         ↔ 0 ≤ r < height boardSize ∧ 0 ≤ c < width boardSize.

Definition noPlacementsReason : option string :=
  Some "No valid placements found".
Definition maxAttemptsReason : option string :=
  Some "Could not find valid placement after maximum attempts".

(** What [placeWordOnBoard] guarantees about its outcome on [board]. *)
Definition placedSpec (board : Board) (word : string) (alignment : Alignment)
    (boardSize : Size) (pl : Placed) : Prop :=
  wellShaped boardSize (boardAfter pl)
  ∧ (success (result pl) = false →
       boardAfter pl = board ∧ committed pl = None
       ∧ (reason (result pl) = noPlacementsReason
          ∨ reason (result pl) = maxAttemptsReason))
  ∧ (success (result pl) = true →
       ∃ p, committed pl = Some p
            ∧ p ∈ generatePossiblePlacements word alignment boardSize).

(** The warnings a history calls for: one line per failed word, in order. *)
Definition warningsOf (h : list (string * Placed)) : list string :=
  entry ← h;
  if success (result entry.2) then []
  else [ String.append "Could not place word: " entry.1 ].

(** Along a history every entry either succeeded or left the board as the
    previous entry left it, and its outcome is one [placeWordOnBoard] allows
    on that board. *)
Fixpoint chained (board : Board) (alignment : Alignment) (boardSize : Size)
    (h : list (string * Placed)) (final : Board) : Prop :=
  match h with
  | [] => final = board
  | entry :: h' =>
      placedSpec board entry.1 alignment boardSize entry.2
      ∧ chained (boardAfter entry.2) alignment boardSize h' final
  end.

Definition runSpec (board : Board) (words : list string)
    (alignment : Alignment) (boardSize : Size) (run : Run) : Prop :=
  (history run).*1 = words
  ∧ warnings run = warningsOf (history run)
  ∧ chained board alignment boardSize (history run) (finalBoard run)
  ∧ wellShaped boardSize (finalBoard run).

(** ** Arguments as a caller writes them *)

(** [{ width: w, height: h }] *)
Definition boardSizeObj (w h : Z) : jsval :=
  JObj [ ("width", JNum w); ("height", JNum h) ].

(** [{ lines: { flag: true, ... }, direction: d }] with the listed flags. *)
Definition alignmentObj (flags : list string) (d : string) : jsval :=
  JObj [ ("lines", JObj ((fun flag => (flag, JBool true)) <$> flags));
         ("direction", JStr d) ].

(** An array of strings. *)
Definition wordsArr (ws : list string) : jsval := JArr (JStr <$> ws).

(** ** The retry loop as the specification words it *)

(** The Placement Engine in the words of the specification (the source is
    [placeWordOnBoard] above): the candidate list is computed once; if it is
    empty the call fails at once; otherwise up to 100 attempts draw from that
    same list. *)
Fixpoint attemptsReusing (remaining : nat) (placements : list Placement)
    (board : Board) (word : string) (direction : string) : M Placed :=
  match remaining with
  | O =>
      mret (mkPlaced
              (mkResult false
                 (Some "Could not find valid placement after maximum attempts"))
              board None)
  | S remaining' =>
      s ← Math_random;
      match placements !! floorTimes s (length placements) with
      | None => raise TypeError
      | Some placement =>
          ok ← canPlaceWord board word placement direction;
          if ok : bool then
            board' ← placeWord board word placement direction;
            mret (mkPlaced (mkResult true None) board' (Some placement))
          else attemptsReusing remaining' placements board word direction
      end
  end.

Definition placeReusingCandidates (board : Board) (word : string)
    (alignment : Alignment) (boardSize : Size) : M Placed :=
  let placements := generatePossiblePlacements word alignment boardSize in
  if Nat.eqb (length placements) 0 then
    mret (mkPlaced (mkResult false (Some "No valid placements found"))
            board None)
  else attemptsReusing maxAttempts placements board word (direction alignment).

(** The bent-diagonal enumeration, one single-cell placement per start cell
    and bend point. *)
Definition singleCellBends (word : string) (boardSize : Size)
  : list Placement :=
  startRow ← range 0 (height boardSize);
  startCol ← range 0 (width boardSize);
  bendPoint ← range 1 (wlen word);
  [ mkPlacement "bend-diagonal-down-up" [ Pos startRow startCol ] None ].

Definition blockOnly : Lines := mkLines false false false false false true.

(** ** Reading words back *)

(** [word.split('')]: the letters of a word, each a one-character string. *)
Definition letters (word : string) : list string :=
  (fun c => String c EmptyString) <$> list_ascii_of_string word.

(** The letter [getLetterForPosition] computes in the two modes that draw
    nothing ('forward' and 'backward'). *)
Definition letterAt (direction : string) (word : string) (i : Z)
  : option string :=
  if String.eqb direction "backward" then charAt word (wlen word - 1 - i)
  else charAt word i.

Definition drawsNothing (direction : string) : Prop :=
  direction = "forward" ∨ direction = "backward".

(** The cells of a rectangle in reading order. *)
Definition rowMajor (startRow startCol blockWidth blockHeight : Z)
  : list Position :=
  r ← range 0 blockHeight;
  (fun c => Pos (startRow + r) (startCol + c)) <$> range 0 blockWidth.

(** The geometry every candidate has: no cell twice, and as many cells as
    the word has letters, except for a bent-diagonal candidate, which has a
    single cell (for a word of two letters or more). *)
Definition wellFormedFor (word : string) (p : Placement) : Prop :=
  NoDup (positions p)
  ∧ ((type p ≠ "bend-diagonal-down-up"
      ∧ length (positions p) = String.length word)
     ∨ (type p = "bend-diagonal-down-up"
        ∧ length (positions p) = 1%nat ∧ 2 ≤ wlen word)).

#[global] Instance Position_eq_dec : EqDecision Position.
Proof. solve_decision. Defined.

(** The letters a placement spells in position order: the word in 'backward'
    mode reversed, the word itself otherwise. *)
Definition spelled (direction : string) (word : string) : list string :=
  if String.eqb direction "backward" then reverse (letters word)
  else letters word.

(** The outcome of reading a cell that holds [letter]. *)
Definition holds (letter : string) : outcome (option string) :=
  Return (Some letter).

(** Every letter on [board] is still on [board'], in the same cell. *)
Definition keepsLetters (board board' : Board) : Prop :=
  ∀ r c s, cellAt board r c = Some (Some s) → s ≠ "" →
           cellAt board' r c = Some (Some s).

(** The cells of a committed placement [p] of [word] hold, on [board], the
    letters [getLetterForPosition] computes in a mode that draws nothing. *)
Definition spelledOn (board : Board) (direction : string) (word : string)
    (p : Placement) : Prop :=
  ∀ (k : nat) pos,
    positions p !! k = Some pos →
    cellAt board (row pos) (col pos)
    = Some (letterAt direction word (Z.of_nat k)).

(** ** Vocabulary of the further properties *)

(** The line [console.warn] receives for a word that could not be placed. *)
Definition warningFor (word : string) : string :=
  String.append "Could not place word: " word.

(** The outcome of [placeWordOnBoard] when the word has no candidate. *)
Definition noCandidates (board : Board) : Placed :=
  mkPlaced (mkResult false (Some "No valid placements found")) board None.

Definition noLines : Lines := mkLines false false false false false false.
Definition horizontalOnly : Lines := mkLines true false false false false false.
Definition verticalOnly : Lines := mkLines false true false false false false.


(** What the collision check tests at the [k]-th position of a placement in
    a mode that draws nothing: the cell is empty or holds the expected
    letter. *)
Definition cellAccepts (board : Board) (direction : string) (word : string)
    (k : Z) (pos : Position) : Prop :=
  readCell board pos = Return (Some "")
  ∨ readCell board pos = Return (letterAt direction word k).

(** What a cell of a generated board may hold: the empty string or one
    letter of one of the words. *)
Definition emptyOrLetterOf (ws : list string) (cell : option string) : Prop :=
  cell = Some ""
  ∨ ∃ word s, word ∈ ws ∧ s ∈ letters word ∧ cell = Some s.

(** The indices of the board are exactly the rows [[0, height)], and the
    indices of every row exactly the columns [[0, width)]. *)
Definition rectangular (boardSize : Size) (board : Board) : Prop :=
  (∀ r, is_Some (board !! r) ↔ 0 ≤ r < height boardSize)
  ∧ ∀ r cells, board !! r = Some cells →
               ∀ c, is_Some (cells !! c) ↔ 0 ≤ c < width boardSize.

(** Two cells that touch, by a side or by a corner. *)
Definition adjacent (a b : Position) : Prop :=
  Z.abs (row b - row a) ≤ 1 ∧ Z.abs (col b - col a) ≤ 1 ∧ a ≠ b.

(** * Displaying a board ([displayBoard.js]) *)

(** The line-feed character, and the default empty character '·' (U+00B7,
    one code unit). *)
Definition nl : string := String (ascii_of_nat 10) EmptyString.
Definition middleDot : string := String (ascii_of_nat 183) EmptyString.

(** [a.length] of an array that was built by assigning to indices: one more
    than its largest index, 0 when it has none. *)
Definition arrayLength {V} (a : gmap Z V) : Z :=
  foldr (fun kv n => Z.max n (kv.1 + 1)) 0 (map_to_list a).

(** The elements of an array by index; [None] is a hole. *)
Definition arrayElements {V} (a : gmap Z V) : list (option V) :=
  (fun i => a !! i) <$> range 0 (arrayLength a).

(** [parts.join(sep)] on strings. *)
Fixpoint join (sep : string) (parts : list string) : string :=
  match parts with
  | [] => ""
  | [ part ] => part
  | part :: rest => String.append part (String.append sep (join sep rest))
  end.

(** What [join] makes of an element: a hole or [undefined] is the empty
    string. *)
Definition joinedElement (elem : option (option string)) : string :=
  match elem with
  | Some (Some s) => s
  | _ => ""
  end.

(** A value inside a template literal or a string concatenation. *)
Definition toString (v : option string) : string :=
  match v with
  | Some s => s
  | None => "undefined"
  end.

(** [cell === '' ? emptyChar : cell] *)
Definition shownCell (emptyChar : string) (cell : option string)
  : option string :=
  if strictNe cell (Some "") then cell else Some emptyChar.

(** [row.map(f)]: [f] is applied to the elements, holes stay holes. *)
Definition mapElements {A B} (f : A → B) (elems : list (option A))
  : list (option B) :=
  (fun elem : option A => f <$> elem) <$> elems.

(** [s.padStart(n)] *)
Definition padStart (n : nat) (s : string) : string :=
  String.append
    (string_of_list_ascii (replicate (n - String.length s) " "%char)) s.

(** [s.replace(/./g, ' ')]: every character but a line terminator becomes a
    space. *)
Definition blankOut (s : string) : string :=
  string_of_list_ascii
    ((fun ch => if (Ascii.eqb ch (ascii_of_nat 10)
                    || Ascii.eqb ch (ascii_of_nat 13))%bool
                then ch else " "%char)
       <$> list_ascii_of_string s).

(** [String(i)] for an integer. *)
Definition String_ (i : Z) : string := pretty i.

(** What a display function leaves behind: the strings it passed to
    [console.log], in order, and the exception that ended it, if any. *)
Record Display : Type := mkDisplay {
  printed : list string;
  thrown : option exn
}.

Definition compactHeader : string :=
  String.append nl (String.append "=== WORD SEARCH BOARD (Compact) ===" nl).
Definition compactFooter : string :=
  String.append nl (String.append "==================================" nl).

(** The line of one row in the compact display. *)
Definition compactLine (emptyChar : string) (cells : Row) : string :=
  join " "
    (joinedElement <$> mapElements (shownCell emptyChar) (arrayElements cells)).

(** [displayBoardCompact(board, emptyChar = '·')]; [None] is an omitted
    argument.  [forEach] skips holes. *)
Definition displayBoardCompact (board : Board) (emptyChar : option string)
  : list string :=
  let emptyChar := default middleDot emptyChar in
  [ compactHeader ]
  ++ (row ← arrayElements board;
      match row with
      | Some cells => [ compactLine emptyChar cells ]
      | None => []
      end)
  ++ [ compactFooter ].

(** The options object of [displayBoard]; [None] is a missing property, for
    which the default applies. *)
Record DisplayOptions : Type := mkOptions {
  emptyChar : option string;
  showGrid : option bool;
  showCoordinates : option bool
}.

Definition gridHeader : string :=
  String.append nl (String.append "=== WORD SEARCH BOARD ===" nl).
Definition gridFooter : string :=
  String.append nl (String.append "========================" nl).

(** The header of column numbers. *)
Definition colHeaders (n : Z) : string :=
  String.append "   "
    (join " " ((fun i => padStart 2 (String_ i)) <$> range 0 n)).

(** The text of one cell: [` ${char} `] with the grid, [char + ' ']
    without. *)
Definition cellText (emptyChar : string) (showGrid : bool)
    (cell : option string) : option string :=
  let char := toString (shownCell emptyChar cell) in
  Some (if showGrid then String.append " " (String.append char " ")
        else String.append char " ").

Definition rowPrefix (showCoordinates : bool) (rowIndex : Z) : string :=
  if showCoordinates then String.append (padStart 2 (String_ rowIndex)) " "
  else "".

(** The line of one row. *)
Definition gridLine (emptyChar : string) (showGrid showCoordinates : bool)
    (rowIndex : Z) (cells : Row) : string :=
  let displayRow :=
    join (if showGrid then "|" else "")
      (joinedElement
         <$> mapElements (cellText emptyChar showGrid) (arrayElements cells)) in
  if showGrid
  then String.append (rowPrefix showCoordinates rowIndex)
         (String.append "|" (String.append displayRow "|"))
  else String.append (rowPrefix showCoordinates rowIndex) displayRow.

(** The separator printed under a row. *)
Definition separator (showCoordinates : bool) (rowIndex : Z) (cells : Row)
  : string :=
  String.append (blankOut (rowPrefix showCoordinates rowIndex))
    (String.append "+"
       (String.append
          (join "+" (replicate (Z.to_nat (arrayLength cells)) "---"))
          "+")).

(** What the callback of [board.forEach] prints for one row. *)
Definition rowOutput (board : Board) (emptyChar : string)
    (showGrid showCoordinates : bool) (rowIndex : Z) (cells : Row)
  : list string :=
  [ gridLine emptyChar showGrid showCoordinates rowIndex cells ]
  ++ (if showGrid && (rowIndex <? arrayLength board - 1)
      then [ separator showCoordinates rowIndex cells ] else []).

(** [displayBoard(board, options = {})]. *)
Definition displayBoard (board : Board) (options : DisplayOptions) : Display :=
  let emptyChar := default middleDot (emptyChar options) in
  let showGrid := default true (showGrid options) in
  let showCoordinates := default false (showCoordinates options) in
  let body :=
    rowIndex ← range 0 (arrayLength board);
    match board !! rowIndex with
    | Some cells =>
        rowOutput board emptyChar showGrid showCoordinates rowIndex cells
    | None => []
    end in
  if showCoordinates then
    match board !! 0 with
    | None => mkDisplay [ gridHeader ] (Some TypeError)
    | Some firstRow =>
        mkDisplay
          ([ gridHeader; colHeaders (arrayLength firstRow) ]
           ++ body ++ [ gridFooter ])
          None
    end
  else mkDisplay ([ gridHeader ] ++ body ++ [ gridFooter ]) None.

(** ** The script [run.js] *)

Definition scriptWords : list string :=
  [ "COLOSSEUM"; "ROBOT"; "JAVASCRIPT"; "RANDOM"; "PANDA"; "KANGAROO";
    "WOMBAT"; "KOALA"; "PORTAL"; "IGLOO"; "AUTONOMY"; "ADVOCATE"; "BATHROOM";
    "NATIONAL"; "NOTEBOOK"; "PROTOCOL"; "TOMORROW"; "RATIONAL"; "LOCATION";
    "COLONIAL" ].

Definition scriptAlignment : jsval :=
  JObj [ ("lines",
          JObj [ ("horizontal", JBool true); ("vertical", JBool true);
                 ("diagonal", JBool false); ("bendsStraight", JBool false);
                 ("bendsDiagonal", JBool false); ("block", JBool false) ]);
         ("direction", JStr "scatter") ].

(** The script: generate, then show the compact view.  The result is what
    [console.warn] and [console.log] received. *)
Definition run_js : M (list string * list string) :=
  run ← generateWordsOnBoard (boardSizeObj 15 15) (wordsArr scriptWords)
          scriptAlignment;
  mret (warnings run, displayBoardCompact (finalBoard run) None).

(** ** Vocabulary of the display properties *)

(** The symbol the compact display shows for the cell at row [r], column
    [c]. *)
Definition shownAt (board : Board) (emptyChar : string) (r c : Z) : string :=
  joinedElement (shownCell emptyChar <$> cellAt board r c).

(** The text the grid display shows for that cell. *)
Definition cellTextAt (board : Board) (emptyChar : string) (showGrid : bool)
    (r c : Z) : string :=
  joinedElement (cellText emptyChar showGrid <$> cellAt board r c).

(** Every cell of the rectangle holds the empty string or one character. *)
Definition printable (boardSize : Size) (board : Board) : Prop :=
  ∀ r c, 0 ≤ r < height boardSize → 0 ≤ c < width boardSize →
         ∃ s, cellAt board r c = Some (Some s)
              ∧ (String.length s ≤ 1)%nat.

(** * Properties *)

(** ** Loops and ranges *)

Lemma elem_of_range (x lo hi : Z) : x ∈ range lo hi ↔ lo ≤ x < hi.
Proof. unfold range. rewrite elem_of_seqZ. lia. Qed.

Lemma length_range (lo hi : Z) : length (range lo hi) = Z.to_nat (hi - lo).
Proof. unfold range. apply length_seqZ. Qed.

Lemma NoDup_range (lo hi : Z) : NoDup (range lo hi).
Proof. unfold range. apply NoDup_seqZ. Qed.

Lemma wlen_nonneg (word : string) : 0 ≤ wlen word.
Proof. unfold wlen. lia. Qed.

(** An invariant of the accumulator of a [foldl] is established by its
    initial value and each step. *)
Lemma foldl_invariant {A B} (P : A → Prop) (Q : B → Prop) (f : A → B → A)
    (l : list B) (a : A) :
  P a → Forall Q l → (∀ a b, P a → Q b → P (f a b)) → P (foldl f a l).
Proof.
  intros Ha Hl Hstep. revert a Ha.
  induction Hl as [|b l Hb _ IH]; intros a Ha; simpl; [done|].
  apply IH. by apply Hstep.
Qed.

(** ** The enumerator stays on the board *)

Ltac enum_cases H :=
  repeat match type of H with
         | _ ∈ _ ++ _ => apply elem_of_app in H as [H|H]
         | _ ∈ _ ≫= _ =>
             let x := fresh "x" in
             let Hx := fresh "Hx" in
             apply list_elem_of_bind in H as (x & H & Hx);
             try apply elem_of_range in Hx
         | _ ∈ (if ?b then _ else _) => destruct b eqn:?
         | _ ∈ [ _ ] => apply list_elem_of_singleton in H; subst
         | _ ∈ [] => by apply elem_of_nil in H
         end.

Ltac on_board_run :=
  apply Forall_forall; intros pos Hpos; cbn [positions] in Hpos;
  unfold bendHVPositions, bendVHPositions in Hpos;
  repeat match type of Hpos with
         | _ ∈ _ ++ _ => apply elem_of_app in Hpos as [Hpos|Hpos]
         end;
  apply list_elem_of_fmap in Hpos as (i & -> & Hi%elem_of_range);
  unfold onBoard; cbn [row col]; lia.

Lemma horizontal_onBoard word boardSize p :
  p ∈ generateHorizontalPlacements word boardSize → placementOnBoard boardSize p.
Proof.
  unfold generateHorizontalPlacements. intros H. enum_cases H. on_board_run.
Qed.

Lemma vertical_onBoard word boardSize p :
  p ∈ generateVerticalPlacements word boardSize → placementOnBoard boardSize p.
Proof.
  unfold generateVerticalPlacements. intros H. enum_cases H. on_board_run.
Qed.

Lemma diagonal_onBoard word boardSize p :
  p ∈ generateDiagonalPlacements word boardSize → placementOnBoard boardSize p.
Proof.
  unfold generateDiagonalPlacements. intros H. enum_cases H; on_board_run.
Qed.

Lemma bendStraight_onBoard word boardSize p :
  p ∈ generateBendStraightPlacements word boardSize →
  placementOnBoard boardSize p.
Proof.
  unfold generateBendStraightPlacements. intros H. enum_cases H;
    match goal with
    | Hc : _ && _ = true |- _ =>
        apply andb_prop in Hc as [?%Z.ltb_lt ?%Z.ltb_lt]
    end; on_board_run.
Qed.

Lemma bendDiagonal_onBoard word boardSize p :
  p ∈ generateBendDiagonalPlacements word boardSize →
  placementOnBoard boardSize p.
Proof.
  unfold generateBendDiagonalPlacements. intros H. enum_cases H.
  apply Forall_forall. intros pos Hpos. cbn in Hpos.
  apply list_elem_of_singleton in Hpos as ->.
  unfold onBoard; cbn [row col]; lia.
Qed.

(** Every cell of a block lies in the rectangle of the block. *)
Lemma blockPositions_in_rectangle startRow startCol blockWidth blockHeight n :
  Forall (fun pos => startRow ≤ row pos < startRow + blockHeight
                     ∧ startCol ≤ col pos < startCol + blockWidth)
    (generateBlockPositions startRow startCol blockWidth blockHeight n).
Proof.
  unfold generateBlockPositions.
  apply (foldl_invariant _ (fun r => 0 ≤ r < blockHeight)).
  - constructor.
  - apply Forall_forall. intros r. by rewrite elem_of_range.
  - intros acc r Hacc Hr.
    apply (foldl_invariant _ (fun c => 0 ≤ c < blockWidth)); [done| |].
    + apply Forall_forall. intros c. by rewrite elem_of_range.
    + intros acc' c Hacc' Hc. case_match; [|done].
      apply Forall_app. split; [done|].
      apply Forall_singleton. cbn [row col]. lia.
Qed.

Lemma block_onBoard word boardSize p :
  p ∈ generateBlockPlacements word boardSize → placementOnBoard boardSize p.
Proof.
  unfold generateBlockPlacements. intros H. cbv zeta in H. enum_cases H.
  unfold placementOnBoard. cbn [positions].
  eapply Forall_impl; [apply blockPositions_in_rectangle|].
  intros pos. cbv beta. unfold onBoard. lia.
Qed.

Lemma generatePossiblePlacements_onBoard word alignment boardSize p :
  p ∈ generatePossiblePlacements word alignment boardSize →
  placementOnBoard boardSize p.
Proof.
  unfold generatePossiblePlacements. cbv zeta. intros H.
  repeat (apply elem_of_app in H as [H|H]);
    (case_match; [|by apply elem_of_nil in H]);
    eauto using horizontal_onBoard, vertical_onBoard, diagonal_onBoard,
      bendStraight_onBoard, bendDiagonal_onBoard, block_onBoard.
Qed.

(** ** Reasoning about computations *)

Lemma bind_eq {A B} (m : M A) (f : A → M B) t :
  (m ≫= f) t = match m t with
               | Return (a, t') => f a t'
               | Throw e => Throw e
               end.
Proof. reflexivity. Qed.

Lemma returns_ret {A} (a : A) (Q : A → Prop) : Q a → returns (mret a) Q.
Proof. intros Ha t. by exists a, t. Qed.

Lemma returns_bind {A B} (m : M A) (f : A → M B) (P : A → Prop)
    (Q : B → Prop) :
  returns m P → (∀ a, P a → returns (f a) Q) → returns (m ≫= f) Q.
Proof.
  intros Hm Hf t. destruct (Hm t) as (a & t' & Ht & Ha).
  rewrite bind_eq, Ht. by apply Hf.
Qed.

Lemma returns_mono {A} (m : M A) (P Q : A → Prop) :
  returns m P → (∀ a, P a → Q a) → returns m Q.
Proof.
  intros Hm HPQ t. destruct (Hm t) as (a & t' & Ht & Ha). eauto.
Qed.

Lemma returns_lift {A} (a : A) (Q : A → Prop) :
  Q a → returns (lift (Return a)) Q.
Proof. intros Ha t. by exists a, t. Qed.

Lemma returns_Math_random : returns Math_random (fun _ => True).
Proof. intros [|s t]; simpl; eauto. Qed.

Lemma returns_shuffle fuel chars : returns (shuffle fuel chars) (fun _ => True).
Proof.
  revert chars. induction fuel as [|fuel IH]; intros chars; simpl.
  - by apply returns_ret.
  - eapply returns_bind; [apply returns_Math_random|]. intros s _.
    destruct (chars !! _); [|by apply returns_ret].
    eapply returns_bind; [apply IH|]. intros; by apply returns_ret.
Qed.

Lemma returns_getLetterForPosition word i direction :
  returns (getLetterForPosition word i direction) (fun _ => True).
Proof.
  unfold getLetterForPosition.
  repeat case_match; try by apply returns_ret.
  - eapply returns_bind; [apply returns_Math_random|].
    intros; by apply returns_ret.
  - eapply returns_bind; [apply returns_shuffle|].
    intros; by apply returns_ret.
Qed.

(** ** The board keeps its shape *)

Lemma lookup_foldl_insert {V} (f : Z → V) (l : list Z) (m0 : gmap Z V) k :
  foldl (fun (m : gmap Z V) x => <[ x := f x ]> m) m0 l !! k
  = if decide (k ∈ l) then Some (f k) else m0 !! k.
Proof.
  revert m0. induction l as [|x l IH]; intros m0; cbn [foldl].
  - destruct (decide (k ∈ [])) as [H|_]; [by apply elem_of_nil in H|done].
  - rewrite IH. destruct (decide (k ∈ l)) as [Hl|Hl].
    + rewrite decide_True; [done|by right].
    + destruct (decide (x = k)) as [->|Hne].
      * rewrite lookup_insert_eq, decide_True; [done|by left].
      * rewrite lookup_insert_ne by done.
        rewrite decide_False; [done|].
        intros [?|?]%elem_of_cons; congruence.
Qed.

Lemma cellAt_createEmptyBoard boardSize r c :
  cellAt (createEmptyBoard boardSize) r c
  = if decide (0 ≤ r < height boardSize ∧ 0 ≤ c < width boardSize)
    then Some (Some "") else None.
Proof.
  unfold cellAt, createEmptyBoard.
  rewrite (lookup_foldl_insert (fun _ => foldl _ _ _)).
  destruct (decide (r ∈ _)) as [Hr|Hr]; rewrite elem_of_range in Hr; simpl.
  - rewrite (lookup_foldl_insert (fun _ => Some "")).
    destruct (decide (c ∈ _)) as [Hc|Hc]; rewrite elem_of_range in Hc;
      rewrite ?lookup_empty; case_decide; (done || lia).
  - rewrite lookup_empty. simpl. case_decide; (done || lia).
Qed.

Lemma createEmptyBoard_wellShaped boardSize :
  wellShaped boardSize (createEmptyBoard boardSize).
Proof.
  intros r c. rewrite cellAt_createEmptyBoard.
  case_decide; split; intros H'; try done; by destruct H' as [? [=]].
Qed.

Lemma readCell_cellAt board pos :
  is_Some (cellAt board (row pos) (col pos)) →
  readCell board pos = Return (default None (cellAt board (row pos) (col pos))).
Proof.
  unfold cellAt, readCell. intros [v Hv].
  destruct (board !! row pos) as [cells|]; [done|by simpl in Hv].
Qed.

Lemma cellAt_writeCell board pos letter board' r c :
  writeCell board pos letter = Return board' →
  cellAt board' r c
  = if decide (r = row pos ∧ c = col pos) then Some letter
    else cellAt board r c.
Proof.
  unfold writeCell, cellAt. intros H.
  destruct (board !! row pos) as [cells|] eqn:Hrow; [|done].
  injection H as <-.
  destruct (decide (r = row pos)) as [->|Hr].
  - rewrite lookup_insert_eq, Hrow. simpl.
    destruct (decide (c = col pos)) as [->|Hc].
    + rewrite lookup_insert_eq. by rewrite decide_True.
    + rewrite lookup_insert_ne by done. rewrite decide_False; [done|tauto].
  - rewrite lookup_insert_ne by done. rewrite decide_False; [done|tauto].
Qed.

Lemma writeCell_returns boardSize board pos letter :
  wellShaped boardSize board → onBoard boardSize pos →
  ∃ board', writeCell board pos letter = Return board'
            ∧ wellShaped boardSize board'.
Proof.
  intros Hshape Hpos.
  assert (is_Some (cellAt board (row pos) (col pos))) as [v Hv]
    by (by apply Hshape).
  destruct (writeCell board pos letter) as [board'|e] eqn:Hw.
  - exists board'. split; [done|]. intros r c.
    rewrite (cellAt_writeCell _ _ _ _ _ _ Hw).
    case_decide as Hd; [|apply Hshape].
    destruct Hd as [-> ->]. split; [by intros _|by eauto].
  - unfold writeCell, cellAt in *.
    destruct (board !! row pos); [done|by simpl in Hv].
Qed.

(** ** The placement engine does not throw *)

Lemma returns_canPlaceWord_from boardSize board word direction rest i :
  wellShaped boardSize board → Forall (onBoard boardSize) rest →
  returns (canPlaceWord_from i board word rest direction) (fun _ => True).
Proof.
  intros Hshape Hrest. revert i.
  induction Hrest as [|pos rest Hpos _ IH]; intros i; simpl.
  - by apply returns_ret.
  - rewrite readCell_cellAt by (by apply Hshape).
    eapply (returns_bind _ _ (fun _ => True)); [by apply returns_lift|].
    intros cell _.
    eapply returns_bind; [apply returns_getLetterForPosition|].
    intros letter _. case_match; [by apply returns_ret|apply IH].
Qed.

Lemma returns_placeWord_from boardSize board word direction rest i :
  wellShaped boardSize board → Forall (onBoard boardSize) rest →
  returns (placeWord_from i board word rest direction) (wellShaped boardSize).
Proof.
  intros Hshape Hrest. revert i board Hshape.
  induction Hrest as [|pos rest Hpos _ IH]; intros i board Hshape; simpl.
  - by apply returns_ret.
  - eapply returns_bind; [apply returns_getLetterForPosition|].
    intros letter _.
    destruct (writeCell_returns boardSize board pos letter)
      as (board' & -> & Hshape'); [done..|].
    eapply (returns_bind _ _ (wellShaped boardSize)); [by apply returns_lift|].
    intros board'' ?. by apply IH.
Qed.

Lemma floorTimes_lt s n : (0 < n)%nat → (floorTimes s n < n)%nat.
Proof.
  intros Hn. unfold floorTimes.
  apply Nat.Div0.div_lt_upper_bound. nia.
Qed.

Lemma returns_placeWordOnBoard_loop remaining board word alignment boardSize :
  wellShaped boardSize board →
  returns (placeWordOnBoard_loop remaining board word alignment boardSize)
          (placedSpec board word alignment boardSize).
Proof.
  intros Hshape. induction remaining as [|remaining IH]; simpl.
  - apply returns_ret. unfold placedSpec. cbn.
    split_and!; [done| |done]. intros _. split_and!; [done..|by right].
  - set (placements := generatePossiblePlacements word alignment boardSize).
    destruct (Nat.eqb (length placements) 0) eqn:Hlen.
    + apply returns_ret. unfold placedSpec. cbn.
      split_and!; [done| |done]. intros _. split_and!; [done..|by left].
    + apply Nat.eqb_neq in Hlen.
      eapply returns_bind; [apply returns_Math_random|]. intros s _.
      assert (floorTimes s (length placements) < length placements)%nat
        as Hlt by (apply floorTimes_lt; lia).
      apply lookup_lt_is_Some_2 in Hlt as [p Hp]. rewrite Hp.
      assert (p ∈ placements) as Hin by (by eapply list_elem_of_lookup_2).
      pose proof (generatePossiblePlacements_onBoard _ _ _ _ Hin) as Hon.
      eapply returns_bind;
        [by eapply returns_canPlaceWord_from|].
      intros [|] _; [|apply IH].
      eapply returns_bind; [by eapply returns_placeWord_from|].
      intros board' Hshape'. apply returns_ret. unfold placedSpec. cbn.
      split_and!; [done|done|]. intros _. by exists p.
Qed.

Lemma returns_placeWords board words alignment boardSize :
  wellShaped boardSize board →
  returns (placeWords board words alignment boardSize)
          (runSpec board words alignment boardSize).
Proof.
  revert board. induction words as [|word rest IH]; intros board Hshape; simpl.
  - apply returns_ret. unfold runSpec. by cbn.
  - eapply returns_bind;
      [by apply returns_placeWordOnBoard_loop|].
    intros pl Hpl.
    eapply returns_bind; [apply IH, Hpl|].
    intros run (Hhist & Hwarn & Hchain & Hfinal).
    apply returns_ret. unfold runSpec. cbn [history warnings finalBoard].
    split_and!; [by rewrite fmap_cons, Hhist| |done|done].
    unfold warningsOf at 1. rewrite bind_cons. cbn [fst snd]. by rewrite Hwarn.
Qed.

(** ** Validation *)

Lemma validateInputs_views boardSize words alignment :
  validateInputs boardSize words alignment = Return tt →
  is_Some (toSize boardSize) ∧ is_Some (toAlignment alignment).
Proof.
  unfold validateInputs, toSize, toAlignment. intros H. split.
  - destruct (truthy boardSize), (getProp boardSize "width"),
      (getProp boardSize "height"); simpl in H; try discriminate; eauto.
  - destruct (negb (truthy boardSize) || _ || _); [discriminate|].
    destruct (negb (isArray words)); [discriminate|].
    destruct (truthy alignment), (truthy (getProp alignment "lines")),
      (getProp alignment "direction"); simpl in H; try discriminate; eauto.
Qed.

Lemma toWords_strings (ws : list string) : toWords (JArr (JStr <$> ws)) = Some ws.
Proof.
  unfold toWords. induction ws as [|w ws IH]; [done|].
  rewrite fmap_cons. cbn [mapM toWord]. rewrite IH. done.
Qed.

Lemma checkBlockLengths_strings_ok (ws : list string) :
  Forall (fun w => wlen w ∉ invalidLengths) ws →
  checkBlockLengths (JStr <$> ws) = Return tt.
Proof.
  induction 1 as [|w ws Hw _ IH]; [done|].
  rewrite fmap_cons. cbn [checkBlockLengths lengthOf includes].
  destruct (existsb (Z.eqb (wlen w)) invalidLengths) eqn:Hex; [|done].
  apply existsb_exists in Hex as (n & Hn & Heq%Z.eqb_eq).
  exfalso. apply Hw. rewrite Heq. by apply list_elem_of_In.
Qed.

Lemma checkBlockLengths_strings_bad (ws : list string) word :
  word ∈ ws → wlen word ∈ invalidLengths →
  ∃ w, w ∈ ws ∧ wlen w ∈ invalidLengths
       ∧ checkBlockLengths (JStr <$> ws)
         = Throw (ErrBlockLength (JStr w) (JNum (wlen w))).
Proof.
  intros Hin Hbad. induction ws as [|w ws IH]; [by apply elem_of_nil in Hin|].
  rewrite fmap_cons. cbn [checkBlockLengths lengthOf includes].
  destruct (existsb (Z.eqb (wlen w)) invalidLengths) eqn:Hex.
  - exists w. split_and!; [by left| |done].
    apply existsb_exists in Hex as (n & Hn & Heq%Z.eqb_eq).
    rewrite Heq. by apply list_elem_of_In.
  - apply elem_of_cons in Hin as [->|Hin].
    + exfalso. apply list_elem_of_In in Hbad.
      assert (existsb (Z.eqb (wlen w)) invalidLengths = true) as Hex'
        by (apply existsb_exists; exists (wlen w); by rewrite Z.eqb_refl).
      congruence.
    + destruct (IH Hin) as (w' & Hw' & Hbad' & ->).
      exists w'. split_and!; [by right|done|done].
Qed.

Lemma checkBlockLengths_not_boardSize ws :
  checkBlockLengths ws ≠ Throw ErrBoardSize.
Proof.
  induction ws as [|w ws IH]; [done|].
  cbn [checkBlockLengths]. destruct w; simpl; try done;
    repeat case_match; done.
Qed.

Lemma generate_throws_when_validation_throws boardSize words alignment e t :
  validateInputs boardSize words alignment = Throw e →
  generateWordsOnBoard boardSize words alignment t = Throw e.
Proof.
  intros H. unfold generateWordsOnBoard. rewrite bind_eq.
  unfold lift. by rewrite H.
Qed.

(** ** Claims about validation *)

(** C3. With [alignment.lines.block = true] and a word of length 3, 5, 7, 11
    or 13 in the word list, the call throws one of the errors of
    [validateInputs]; the throw comes out of [validateInputs] itself, which
    runs before the board is created and before any placement is tried, so
    no board exists when the call fails.  When the other arguments are valid
    the error is the block-length error of such a word.  A word of length 5
    is one of the cases. *)
Theorem block_mode_rejects_invalid_lengths
    boardSize alignment (ws : list string) word :
  getProp (getProp alignment "lines") "block" = JBool true →
  word ∈ ws → wlen word ∈ [3; 5; 7; 11; 13] →
  ∃ e, isConfigurationError e = true
       ∧ validateInputs boardSize (wordsArr ws) alignment = Throw e
       ∧ (∀ t, generateWordsOnBoard boardSize (wordsArr ws) alignment t
               = Throw e)
       ∧ (validateInputs boardSize (wordsArr []) alignment = Return tt →
          ∃ w, w ∈ ws ∧ wlen w ∈ [3; 5; 7; 11; 13]
               ∧ e = ErrBlockLength (JStr w) (JNum (wlen w))).
Proof.
  intros Hblock Hin Hbad.
  assert (∃ e, isConfigurationError e = true
               ∧ validateInputs boardSize (wordsArr ws) alignment = Throw e
               ∧ (validateInputs boardSize (wordsArr []) alignment = Return tt →
                  ∃ w, w ∈ ws ∧ wlen w ∈ [3; 5; 7; 11; 13]
                       ∧ e = ErrBlockLength (JStr w) (JNum (wlen w))))
    as (e & He & Hv & Hfirst).
  { unfold validateInputs.
    destruct (negb (truthy boardSize) || _ || _); [by exists ErrBoardSize|].
    cbn [wordsArr isArray negb].
    destruct (negb (truthy alignment) || _ || _); [by exists ErrAlignment|].
    rewrite Hblock. cbn [truthy].
    destruct (checkBlockLengths_strings_bad ws word Hin Hbad)
      as (w & Hw & Hbadw & ->).
    exists (ErrBlockLength (JStr w) (JNum (wlen w))).
    split_and!; [done..|]. intros _. by exists w. }
  exists e. split_and!; [done..| |done].
  intros t. by apply generate_throws_when_validation_throws.
Qed.

Lemma block_mode_rejects_invalid_lengths_witness :
  getProp (getProp (alignmentObj ["block"] "forward") "lines") "block"
  = JBool true
  ∧ "ROBOT" ∈ ["PANDA"; "ROBOT"]
  ∧ wlen "ROBOT" ∈ [3; 5; 7; 11; 13]
  ∧ ∃ e, isConfigurationError e = true
         ∧ validateInputs (boardSizeObj 15 15) (wordsArr ["PANDA"; "ROBOT"])
             (alignmentObj ["block"] "forward") = Throw e
         ∧ ∀ t, generateWordsOnBoard (boardSizeObj 15 15)
                  (wordsArr ["PANDA"; "ROBOT"])
                  (alignmentObj ["block"] "forward") t = Throw e.
Proof.
  assert ("ROBOT" ∈ ["PANDA"; "ROBOT"]) as Hin
    by (apply list_elem_of_In; simpl; tauto).
  assert (wlen "ROBOT" ∈ [3; 5; 7; 11; 13]) as Hbad
    by (apply list_elem_of_In; vm_compute; tauto).
  split_and!; [reflexivity|exact Hin|exact Hbad|].
  destruct (block_mode_rejects_invalid_lengths (boardSizeObj 15 15)
              (alignmentObj ["block"] "forward") ["PANDA"; "ROBOT"] "ROBOT"
              eq_refl Hin Hbad) as (e & He & Hv & Hgen & _).
  by exists e.
Defined.

(** C6, the claim as stated fails: a board size whose width is zero and
    whose height is negative passes validation, and the call returns a board
    (one without cells) instead of throwing. *)
Lemma nonpositive_boardSize_is_accepted :
  validateInputs (boardSizeObj 0 (-2)) (wordsArr ["CAT"])
    (alignmentObj ["horizontal"] "forward") = Return tt
  ∧ generateWordsOnBoard (boardSizeObj 0 (-2)) (wordsArr ["CAT"])
      (alignmentObj ["horizontal"] "forward") []
    = Return (mkRun ∅ [ "Could not place word: CAT" ]
                [ ("CAT", mkPlaced (mkResult false noPlacementsReason) ∅ None) ],
              []).
Proof. split; reflexivity. Qed.

(** C6, amended.  The board-size error is thrown exactly when [boardSize]
    is falsy or its [width] or [height] is not of type number, and then the
    call throws it before any board is created.  A numeric width and height
    of any sign are not rejected by this check. *)
Theorem boardSize_check_is_typeof_number boardSize words alignment :
  (validateInputs boardSize words alignment = Throw ErrBoardSize
   ↔ truthy boardSize = false
     ∨ typeof_number (getProp boardSize "width") = false
     ∨ typeof_number (getProp boardSize "height") = false)
  ∧ (validateInputs boardSize words alignment = Throw ErrBoardSize →
     ∀ t, generateWordsOnBoard boardSize words alignment t
          = Throw ErrBoardSize)
  ∧ ∀ w h, validateInputs (boardSizeObj w h) words alignment
           ≠ Throw ErrBoardSize.
Proof.
  assert (∀ bs, validateInputs bs words alignment = Throw ErrBoardSize
                ↔ truthy bs = false
                  ∨ typeof_number (getProp bs "width") = false
                  ∨ typeof_number (getProp bs "height") = false) as Hiff.
  { intros bs. unfold validateInputs.
    destruct (truthy bs), (typeof_number (getProp bs "width")),
      (typeof_number (getProp bs "height")); cbn [negb orb];
      try (split; [by eauto|done]).
    split; [|by intros [|[|]]].
    intros H. exfalso. repeat case_match; try done.
    by eapply checkBlockLengths_not_boardSize. }
  split_and!; [apply Hiff| |].
  - intros H t. by apply generate_throws_when_validation_throws.
  - intros w h H. apply Hiff in H. by destruct H as [|[|]].
Qed.

Lemma boardSize_check_is_typeof_number_witness :
  validateInputs (JObj [ ("width", JStr "5"); ("height", JNum 5) ])
    (wordsArr []) (alignmentObj ["horizontal"] "forward") = Throw ErrBoardSize
  ∧ ∀ t, generateWordsOnBoard
           (JObj [ ("width", JStr "5"); ("height", JNum 5) ])
           (wordsArr []) (alignmentObj ["horizontal"] "forward") t
         = Throw ErrBoardSize.
Proof.
  split; [reflexivity|].
  exact (proj1 (proj2 (boardSize_check_is_typeof_number
                         (JObj [ ("width", JStr "5"); ("height", JNum 5) ])
                         (wordsArr []) (alignmentObj ["horizontal"] "forward")))
           eq_refl).
Defined.

(** ** Claims about the enumerator and the engine *)

(** C7. For a word of length at least 1 on a board of positive width and
    height, every position of every candidate placement (whatever shapes are
    enabled) has [0 ≤ row < height] and [0 ≤ col < width]; therefore, on a
    board of that shape, the collision check and the write of any candidate
    never throw and touch existing cells only: the board keeps its shape. *)
Theorem enumerator_positions_in_bounds word alignment boardSize p :
  1 ≤ wlen word → 0 < width boardSize → 0 < height boardSize →
  p ∈ generatePossiblePlacements word alignment boardSize →
  (∀ pos, pos ∈ positions p →
          0 ≤ row pos < height boardSize ∧ 0 ≤ col pos < width boardSize)
  ∧ ∀ board dir,
      wellShaped boardSize board →
      returns (canPlaceWord board word p dir) (fun _ => True)
      ∧ returns (placeWord board word p dir) (wellShaped boardSize).
Proof.
  intros _ _ _ Hin.
  pose proof (generatePossiblePlacements_onBoard _ _ _ _ Hin) as Hon.
  split.
  - intros pos Hpos. unfold placementOnBoard in Hon.
    rewrite Forall_forall in Hon. by apply Hon.
  - intros board dir Hshape. split.
    + by eapply returns_canPlaceWord_from.
    + by eapply returns_placeWord_from.
Qed.

Lemma enumerator_positions_in_bounds_witness :
  1 ≤ wlen "CAT" ∧ 0 < width (mkSize 5 1) ∧ 0 < height (mkSize 5 1)
  ∧ mkPlacement "horizontal" [ Pos 0 1; Pos 0 2; Pos 0 3 ] None
    ∈ generatePossiblePlacements "CAT"
        (mkAlignment (mkLines true true true true true true) "scatter")
        (mkSize 5 1)
  ∧ ∀ pos, pos ∈ [ Pos 0 1; Pos 0 2; Pos 0 3 ] →
           0 ≤ row pos < 1 ∧ 0 ≤ col pos < 5.
Proof.
  assert (mkPlacement "horizontal" [ Pos 0 1; Pos 0 2; Pos 0 3 ] None
          ∈ generatePossiblePlacements "CAT"
              (mkAlignment (mkLines true true true true true true) "scatter")
              (mkSize 5 1)) as Hin
    by (apply list_elem_of_In; vm_compute; tauto).
  split_and!; [by vm_compute|reflexivity|reflexivity|exact Hin|].
  exact (proj1 (enumerator_positions_in_bounds "CAT" _ (mkSize 5 1) _
                  ltac:(by vm_compute) eq_refl eq_refl Hin)).
Defined.

(** C8. Once validation has passed, a call on a list of strings returns on
    every random tape: it never throws.  The run it returns processed every
    word, in input order; each word either was committed at one of its
    candidate placements or failed with one of the two reasons, in which case
    the board is as the previous word left it; [console.warn] received one
    line per failed word, in order; and the board returned has the shape of
    [boardSize]. *)
Theorem generation_always_returns_a_board boardSize alignment
    (ws : list string) :
  validateInputs boardSize (wordsArr ws) alignment = Return tt →
  ∃ boardSize' alignment',
    toSize boardSize = Some boardSize'
    ∧ toAlignment alignment = Some alignment'
    ∧ returns (generateWordsOnBoard boardSize (wordsArr ws) alignment)
        (fun run =>
           (history run).*1 = ws
           ∧ warnings run = warningsOf (history run)
           ∧ chained (createEmptyBoard boardSize') alignment' boardSize'
               (history run) (finalBoard run)
           ∧ wellShaped boardSize' (finalBoard run)).
Proof.
  intros Hvalid.
  destruct (validateInputs_views _ _ _ Hvalid) as [[bs Hbs] [al Hal]].
  exists bs, al. split_and!; [done..|].
  unfold generateWordsOnBoard. rewrite Hvalid.
  eapply (returns_bind _ _ (fun _ => True)); [by apply returns_lift|].
  intros _ _. unfold wordsArr. rewrite Hbs, Hal, toWords_strings.
  apply returns_placeWords, createEmptyBoard_wellShaped.
Qed.

Lemma generation_always_returns_a_board_witness :
  validateInputs (boardSizeObj 3 3) (wordsArr ["AB"; "LONGWORD"; "BA"])
    (alignmentObj ["horizontal"; "vertical"] "scatter") = Return tt
  ∧ ∃ run t',
      generateWordsOnBoard (boardSizeObj 3 3)
        (wordsArr ["AB"; "LONGWORD"; "BA"])
        (alignmentObj ["horizontal"; "vertical"] "scatter")
        [ Sample 1 2; Sample 3 1 ] = Return (run, t')
      ∧ (history run).*1 = ["AB"; "LONGWORD"; "BA"].
Proof.
  split; [reflexivity|].
  destruct (generation_always_returns_a_board (boardSizeObj 3 3)
              (alignmentObj ["horizontal"; "vertical"] "scatter")
              ["AB"; "LONGWORD"; "BA"] eq_refl)
    as (bs & al & _ & _ & Hret).
  destruct (Hret [ Sample 1 2; Sample 3 1 ]) as (run & t' & Hrun & Hhist & _).
  by exists run, t'.
Defined.

Lemma bind_ext_elem {A B} (f g : A → list B) (l : list A) :
  (∀ x, x ∈ l → f x = g x) → l ≫= f = l ≫= g.
Proof.
  induction l as [|a l IH]; intros H; [done|].
  rewrite !bind_cons. f_equal.
  - apply H. by left.
  - apply IH. intros x Hx. apply H. by right.
Qed.

Lemma length_bind_const {A B} (f : A → list B) (l : list A) (n : nat) :
  (∀ x, length (f x) = n) → length (l ≫= f) = (length l * n)%nat.
Proof.
  intros H. induction l as [|a l IH]; [done|].
  rewrite bind_cons, length_app, H, IH. simpl. lia.
Qed.

(** C9. For a word of length at least 2 on a board of positive dimensions,
    the bent-diagonal enumeration is exactly one placement per start cell of
    the board and bend point in [[1, length)], tagged
    'bend-diagonal-down-up', whose only position is the start cell: no
    placement has a second cell, and there are
    [height * width * (length - 1)] of them. *)
Theorem bendsDiagonal_yields_single_cells word boardSize :
  2 ≤ wlen word → 0 < width boardSize → 0 < height boardSize →
  generateBendDiagonalPlacements word boardSize
  = singleCellBends word boardSize
  ∧ Z.of_nat (length (generateBendDiagonalPlacements word boardSize))
    = height boardSize * width boardSize * (wlen word - 1)
  ∧ ∀ p, p ∈ generateBendDiagonalPlacements word boardSize →
         type p = "bend-diagonal-down-up"
         ∧ ∃ startRow startCol,
             positions p = [ Pos startRow startCol ]
             ∧ onBoard boardSize (Pos startRow startCol).
Proof.
  intros HL Hw Hh.
  assert (generateBendDiagonalPlacements word boardSize
          = singleCellBends word boardSize) as Heq.
  { unfold generateBendDiagonalPlacements, singleCellBends.
    apply bind_ext_elem. intros startRow Hr%elem_of_range.
    apply bind_ext_elem. intros startCol Hc%elem_of_range.
    apply bind_ext_elem. intros bendPoint _.
    unfold isValidDiagonalBend, generateDiagonalBendPositions.
    cbn [forallb]. unfold isValidPosition. cbn [row col].
    replace (0 <=? startRow) with true by (symmetry; apply Z.leb_le; lia).
    replace (0 <=? startCol) with true by (symmetry; apply Z.leb_le; lia).
    replace (startRow <? height boardSize) with true
      by (symmetry; apply Z.ltb_lt; lia).
    replace (startCol <? width boardSize) with true
      by (symmetry; apply Z.ltb_lt; lia).
    reflexivity. }
  split_and!; [done| |].
  - rewrite Heq. unfold singleCellBends.
    rewrite (length_bind_const _ _
               (Z.to_nat (width boardSize) * Z.to_nat (wlen word - 1))).
    + rewrite length_range. nia.
    + intros startRow.
      rewrite (length_bind_const _ _ (Z.to_nat (wlen word - 1))).
      * rewrite length_range. f_equal. lia.
      * intros startCol. rewrite (length_bind_const _ _ 1%nat); [|done].
        rewrite length_range. lia.
  - intros p Hp. rewrite Heq in Hp. unfold singleCellBends in Hp.
    enum_cases Hp. split; [done|].
    eexists _, _. split; [done|]. unfold onBoard. cbn [row col]. lia.
Qed.

Lemma bendsDiagonal_yields_single_cells_witness :
  2 ≤ wlen "CAT" ∧ 0 < width (mkSize 2 1) ∧ 0 < height (mkSize 2 1)
  ∧ generateBendDiagonalPlacements "CAT" (mkSize 2 1)
    = [ mkPlacement "bend-diagonal-down-up" [ Pos 0 0 ] None;
        mkPlacement "bend-diagonal-down-up" [ Pos 0 0 ] None;
        mkPlacement "bend-diagonal-down-up" [ Pos 0 1 ] None;
        mkPlacement "bend-diagonal-down-up" [ Pos 0 1 ] None ].
Proof.
  split_and!; [by vm_compute|reflexivity|reflexivity|].
  exact (proj1 (bendsDiagonal_yields_single_cells "CAT" (mkSize 2 1)
                  ltac:(by vm_compute) eq_refl eq_refl)).
Defined.

(** ** Claims about the candidate list *)

Lemma generatePossiblePlacements_by_length w1 w2 a1 a2 boardSize :
  wlen w1 = wlen w2 → lines a1 = lines a2 →
  generatePossiblePlacements w1 a1 boardSize
  = generatePossiblePlacements w2 a2 boardSize.
Proof.
  intros Hlen Hlines.
  unfold generatePossiblePlacements, generateHorizontalPlacements,
    generateVerticalPlacements, generateDiagonalPlacements,
    generateBendStraightPlacements, generateBendDiagonalPlacements,
    generateBlockPlacements, bendHVPositions, bendVHPositions.
  by rewrite Hlen, Hlines.
Qed.

Lemma loop_reuses_candidates remaining board word alignment boardSize t :
  Nat.eqb (length (generatePossiblePlacements word alignment boardSize)) 0
  = false →
  placeWordOnBoard_loop remaining board word alignment boardSize t
  = attemptsReusing remaining
      (generatePossiblePlacements word alignment boardSize) board word
      (direction alignment) t.
Proof.
  intros Hne. revert t.
  induction remaining as [|remaining IH]; intros t; [done|].
  cbn [placeWordOnBoard_loop attemptsReusing]. cbv zeta. rewrite Hne.
  rewrite !bind_eq. destruct (Math_random t) as [[s t1]|e]; [|done].
  destruct (_ !! _) as [placement|]; [|done].
  rewrite !bind_eq.
  destruct (canPlaceWord board word placement (direction alignment) t1)
    as [[[|] t2]|e]; [done|apply IH|done].
Qed.

(** C5. The candidate list depends on the word only through its length, and
    on the alignment only through its shape flags; it takes neither the
    board nor the attempt number as input.  Hence the source's retry loop,
    which calls the enumerator anew in every attempt, returns on every board
    and every random tape what the loop of the specification returns, which
    computes the list once and draws from it in every attempt. *)
Theorem candidate_list_reuse_equivalence :
  (∀ w1 w2 a1 a2 boardSize,
     wlen w1 = wlen w2 → lines a1 = lines a2 →
     generatePossiblePlacements w1 a1 boardSize
     = generatePossiblePlacements w2 a2 boardSize)
  ∧ ∀ board word alignment boardSize t,
      placeWordOnBoard board word alignment boardSize t
      = placeReusingCandidates board word alignment boardSize t.
Proof.
  split; [apply generatePossiblePlacements_by_length|].
  intros board word alignment boardSize t.
  unfold placeWordOnBoard, placeReusingCandidates. cbv zeta.
  destruct (Nat.eqb (length (generatePossiblePlacements word alignment
              boardSize)) 0) eqn:Hlen.
  - unfold maxAttempts. cbn [placeWordOnBoard_loop]. cbv zeta.
    by rewrite Hlen.
  - by apply loop_reuses_candidates.
Qed.

Lemma candidate_list_reuse_equivalence_witness :
  wlen "CAT" = wlen "DOG"
  ∧ generatePossiblePlacements "CAT"
      (mkAlignment (mkLines true false true false false false) "forward")
      (mkSize 4 3)
    = generatePossiblePlacements "DOG"
        (mkAlignment (mkLines true false true false false false) "scatter")
        (mkSize 4 3).
Proof.
  split; [reflexivity|].
  exact (proj1 candidate_list_reuse_equivalence "CAT" "DOG" _ _ (mkSize 4 3)
           eq_refl eq_refl).
Defined.

(** ** The bound check of the bent-straight shape *)

(** The first-leg guards are strict where the leg would still fit: no
    right-then-down placement reaches the last column, and no
    down-then-right placement reaches the last row. *)
Lemma bendStraight_hv_avoids_last_column word boardSize p pos :
  p ∈ generateBendStraightPlacements word boardSize →
  type p = "bend-straight-hv" → pos ∈ positions p →
  col pos < width boardSize - 1.
Proof.
  unfold generateBendStraightPlacements. intros H Htype Hpos.
  enum_cases H; try discriminate Htype;
    match goal with
    | Hc : _ && _ = true |- _ =>
        apply andb_prop in Hc as [?%Z.ltb_lt ?%Z.ltb_lt]
    end;
    cbn [positions] in Hpos; unfold bendHVPositions in Hpos;
    apply elem_of_app in Hpos as [Hpos|Hpos];
    apply list_elem_of_fmap in Hpos as (i & -> & Hi%elem_of_range);
    cbn [col]; lia.
Qed.

Lemma bendStraight_vh_avoids_last_row word boardSize p pos :
  p ∈ generateBendStraightPlacements word boardSize →
  type p = "bend-straight-vh" → pos ∈ positions p →
  row pos < height boardSize - 1.
Proof.
  unfold generateBendStraightPlacements. intros H Htype Hpos.
  enum_cases H; try discriminate Htype;
    match goal with
    | Hc : _ && _ = true |- _ =>
        apply andb_prop in Hc as [?%Z.ltb_lt ?%Z.ltb_lt]
    end;
    cbn [positions] in Hpos; unfold bendVHPositions in Hpos;
    apply elem_of_app in Hpos as [Hpos|Hpos];
    apply list_elem_of_fmap in Hpos as (i & -> & Hi%elem_of_range);
    cbn [row]; lia.
Qed.

(** C4, evaluated where the claim fails.  On a 2 × 2 board the word "AB"
    bent after its first letter fits at start (0, 1) going right then down
    (cells (0,1), (1,1)) and at start (1, 0) going down then right (cells
    (1,0), (1,1)): all these cells are on the board.  The enumerator yields
    neither; its whole output is the two placements that start at (0, 0). *)
Theorem bendStraight_skips_fitting_placements :
  bendHVPositions "AB" 0 1 1 = [ Pos 0 1; Pos 1 1 ]
  ∧ forallb (fun pos => isValidPosition pos (mkSize 2 2))
      (bendHVPositions "AB" 0 1 1) = true
  ∧ bendVHPositions "AB" 1 0 1 = [ Pos 1 0; Pos 1 1 ]
  ∧ forallb (fun pos => isValidPosition pos (mkSize 2 2))
      (bendVHPositions "AB" 1 0 1) = true
  ∧ generateBendStraightPlacements "AB" (mkSize 2 2)
    = [ mkPlacement "bend-straight-hv" [ Pos 0 0; Pos 1 0 ] None;
        mkPlacement "bend-straight-vh" [ Pos 0 0; Pos 0 1 ] None ].
Proof. split_and!; reflexivity. Qed.

Lemma getValidBlockDimensions_nonempty n :
  getValidBlockDimensions n ≠ [] ↔ n ∈ [4; 6; 8; 9; 10; 12; 14; 15; 16].
Proof.
  rewrite !elem_of_cons, elem_of_nil. unfold getValidBlockDimensions. split.
  - intros H.
    destruct (n =? 4) eqn:E4; [apply Z.eqb_eq in E4; tauto|].
    destruct (n =? 9) eqn:E9; [apply Z.eqb_eq in E9; tauto|].
    destruct (n =? 16) eqn:E16; [apply Z.eqb_eq in E16; tauto|].
    destruct (n =? 6) eqn:E6; [apply Z.eqb_eq in E6; tauto|].
    destruct (n =? 8) eqn:E8; [apply Z.eqb_eq in E8; tauto|].
    destruct (n =? 10) eqn:E10; [apply Z.eqb_eq in E10; tauto|].
    destruct (n =? 12) eqn:E12; [apply Z.eqb_eq in E12; tauto|].
    destruct (n =? 14) eqn:E14; [apply Z.eqb_eq in E14; tauto|].
    destruct (n =? 15) eqn:E15; [apply Z.eqb_eq in E15; tauto|].
    by destruct H.
  - intros H. repeat (destruct H as [->|H]; [done|]). done.
Qed.

Lemma checkBlockLengths_strings_valid (ws : list string) :
  checkBlockLengths (JStr <$> ws) = Return tt
  ↔ Forall (fun w => wlen w ∉ [3; 5; 7; 11; 13]) ws.
Proof.
  split; [|apply checkBlockLengths_strings_ok].
  induction ws as [|w ws IH]; [by constructor|].
  rewrite fmap_cons. cbn [checkBlockLengths lengthOf includes].
  destruct (existsb (Z.eqb (wlen w)) invalidLengths) eqn:Hex; [done|].
  intros H. constructor; [|by apply IH].
  intros Hin%list_elem_of_In.
  assert (existsb (Z.eqb (wlen w)) invalidLengths = true) as Hex'
    by (apply existsb_exists; exists (wlen w); by rewrite Z.eqb_refl).
  congruence.
Qed.

(** C10. A word length has a block dimension exactly when it is one of
    4, 6, 8, 9, 10, 12, 14, 15, 16, whereas the block-mode check of
    validation accepts a list of words exactly when none has length 3, 5, 7,
    11 or 13.  So for a word whose length is in neither set (1, 2, 17, ...):
    a block-mode call whose words all escape the check passes validation;
    the word has no block placement on any board; and with block as the only
    enabled shape its placement fails at once with 'No valid placements
    found', leaving the board unchanged, instead of an error being thrown. *)
Theorem block_length_validation_gap :
  (∀ n, getValidBlockDimensions n ≠ [] ↔ n ∈ [4; 6; 8; 9; 10; 12; 14; 15; 16])
  ∧ (∀ (ws : list string) w h d,
       validateInputs (boardSizeObj w h) (wordsArr ws)
         (alignmentObj ["block"] d) = Return tt
       ↔ Forall (fun w => wlen w ∉ [3; 5; 7; 11; 13]) ws)
  ∧ ∀ word,
      wlen word ∉ [4; 6; 8; 9; 10; 12; 14; 15; 16] →
      wlen word ∉ [3; 5; 7; 11; 13] →
      (∀ (ws : list string) w h d,
         word ∈ ws → Forall (fun w => wlen w ∉ [3; 5; 7; 11; 13]) ws →
         validateInputs (boardSizeObj w h) (wordsArr ws)
           (alignmentObj ["block"] d) = Return tt)
      ∧ (∀ boardSize, generateBlockPlacements word boardSize = [])
      ∧ ∀ board alignment boardSize t,
          lines alignment = blockOnly →
          placeWordOnBoard board word alignment boardSize t
          = Return (mkPlaced
                      (mkResult false (Some "No valid placements found"))
                      board None, t).
Proof.
  assert (∀ (ws : list string) w h d,
            validateInputs (boardSizeObj w h) (wordsArr ws)
              (alignmentObj ["block"] d)
            = checkBlockLengths (JStr <$> ws)) as Hcheck by done.
  split_and!; [apply getValidBlockDimensions_nonempty| |].
  { intros ws w h d. rewrite Hcheck. apply checkBlockLengths_strings_valid. }
  intros word Hblock Hvalid.
  assert (∀ boardSize, generateBlockPlacements word boardSize = []) as Hnone.
  { intros boardSize. unfold generateBlockPlacements. cbv zeta.
    destruct (getValidBlockDimensions (wlen word)) as [|blk blks] eqn:Hdims;
      [done|].
    exfalso. apply Hblock, getValidBlockDimensions_nonempty. by rewrite Hdims. }
  split_and!; [|done|].
  - intros ws w h d _ Hws. rewrite Hcheck.
    by apply checkBlockLengths_strings_ok.
  - intros board alignment boardSize t Hlines.
    unfold placeWordOnBoard, maxAttempts. cbn [placeWordOnBoard_loop].
    cbv zeta. unfold generatePossiblePlacements. cbv zeta.
    rewrite Hlines. cbn [blockOnly horizontal vertical diagonal bendsStraight
                         bendsDiagonal block app].
    by rewrite Hnone.
Qed.

Lemma block_length_validation_gap_witness :
  (wlen "AB" ∉ [4; 6; 8; 9; 10; 12; 14; 15; 16])
  ∧ (wlen "AB" ∉ [3; 5; 7; 11; 13])
  ∧ validateInputs (boardSizeObj 4 4) (wordsArr ["AB"])
      (alignmentObj ["block"] "forward") = Return tt
  ∧ generateBlockPlacements "AB" (mkSize 4 4) = []
  ∧ placeWordOnBoard (createEmptyBoard (mkSize 4 4)) "AB"
      (mkAlignment blockOnly "forward") (mkSize 4 4) []
    = Return (mkPlaced (mkResult false (Some "No valid placements found"))
                (createEmptyBoard (mkSize 4 4)) None, []).
Proof.
  assert (wlen "AB" ∉ [4; 6; 8; 9; 10; 12; 14; 15; 16]) as H1
    by (rewrite list_elem_of_In; vm_compute; intuition discriminate).
  assert (wlen "AB" ∉ [3; 5; 7; 11; 13]) as H2
    by (rewrite list_elem_of_In; vm_compute; intuition discriminate).
  destruct (proj2 (proj2 block_length_validation_gap) "AB" H1 H2)
    as (Hv & Hnone & Hfail).
  split_and!; [exact H1|exact H2| |apply Hnone|by apply Hfail].
  apply Hv; [apply list_elem_of_In; simpl; tauto|].
  constructor; [exact H2|constructor].
Defined.

(** ** The geometry of candidates *)

Lemma length_range_wlen word :
  length (range 0 (wlen word)) = String.length word.
Proof. rewrite length_range. unfold wlen. lia. Qed.

Lemma NoDup_fmap_range (f : Z → Position) lo hi :
  (∀ i j, f i = f j → i = j) → NoDup (f <$> range lo hi).
Proof.
  intros Hinj. apply NoDup_fmap_2_strong; [|apply NoDup_range].
  intros i j _ _. apply Hinj.
Qed.

Ltac line_shape :=
  split;
  [ apply NoDup_fmap_range; intros i j [= ?]; lia
  | left; split; [done|];
    cbn [positions]; by rewrite length_fmap, length_range_wlen ].

Lemma horizontal_wellFormed word boardSize p :
  p ∈ generateHorizontalPlacements word boardSize → wellFormedFor word p.
Proof.
  unfold generateHorizontalPlacements. intros H. enum_cases H. line_shape.
Qed.

Lemma vertical_wellFormed word boardSize p :
  p ∈ generateVerticalPlacements word boardSize → wellFormedFor word p.
Proof.
  unfold generateVerticalPlacements. intros H. enum_cases H. line_shape.
Qed.

Lemma diagonal_wellFormed word boardSize p :
  p ∈ generateDiagonalPlacements word boardSize → wellFormedFor word p.
Proof.
  unfold generateDiagonalPlacements. intros H. enum_cases H; line_shape.
Qed.

Lemma bendStraight_wellFormed word boardSize p :
  p ∈ generateBendStraightPlacements word boardSize → wellFormedFor word p.
Proof.
  unfold generateBendStraightPlacements. intros H.
  enum_cases H; (split; [|left; split; [done|]]); cbn [positions];
    unfold bendHVPositions, bendVHPositions.
  1, 3: apply NoDup_app; split_and!;
    [ apply NoDup_fmap_range; intros i j [= ?]; lia
    | intros pos (i & -> & Hi%elem_of_range)%list_elem_of_fmap
                 (j & [= ? ?] & Hj%elem_of_range)%list_elem_of_fmap; lia
    | apply NoDup_fmap_range; intros i j [= ?]; lia ].
  all: rewrite length_app, !length_fmap, !length_range; unfold wlen in *; lia.
Qed.

Lemma bendDiagonal_wellFormed word boardSize p :
  p ∈ generateBendDiagonalPlacements word boardSize → wellFormedFor word p.
Proof.
  unfold generateBendDiagonalPlacements. intros H. enum_cases H.
  split; [apply NoDup_singleton|]. right. split_and!; [done|done|lia].
Qed.

(** The guarded pushes of [generateBlockPositions] keep a prefix of the
    cells in reading order. *)
Lemma guarded_push_cols (g : Z → Position) (n : Z) (cs : list Z)
    (acc : list Position) :
  foldl (fun positions c =>
           if Z.of_nat (length positions) <? n
           then positions ++ [ g c ] else positions) acc cs
  = acc ++ take (Z.to_nat n - length acc) (g <$> cs).
Proof.
  revert acc. induction cs as [|c cs IH]; intros acc.
  - by rewrite fmap_nil, take_nil, app_nil_r.
  - cbn [foldl]. rewrite IH, fmap_cons.
    destruct (Z.of_nat (length acc) <? n) eqn:Hlt.
    + apply Z.ltb_lt in Hlt. rewrite length_app. cbn [length].
      replace (Z.to_nat n - length acc)%nat
        with (S (Z.to_nat n - (length acc + 1)))%nat by lia.
      cbn [take]. by rewrite <- app_assoc.
    + apply Z.ltb_ge in Hlt.
      by replace (Z.to_nat n - length acc)%nat with 0%nat by lia.
Qed.

Lemma generateBlockPositions_prefix startRow startCol blockWidth blockHeight n :
  generateBlockPositions startRow startCol blockWidth blockHeight n
  = take (Z.to_nat n) (rowMajor startRow startCol blockWidth blockHeight).
Proof.
  unfold generateBlockPositions, rowMajor.
  assert (∀ rs acc,
            foldl (fun positions r =>
                     foldl (fun positions c =>
                              if Z.of_nat (length positions) <? n
                              then positions
                                   ++ [ Pos (startRow + r) (startCol + c) ]
                              else positions)
                           positions (range 0 blockWidth)) acc rs
            = acc ++ take (Z.to_nat n - length acc)
                       (rs ≫= fun r =>
                          (fun c => Pos (startRow + r) (startCol + c))
                            <$> range 0 blockWidth)) as Hrows.
  { induction rs as [|r rs IH]; intros acc.
    - csimpl. by rewrite take_nil, app_nil_r.
    - cbn [foldl].
      rewrite (guarded_push_cols (fun c => Pos (startRow + r) (startCol + c))).
      rewrite IH, bind_cons, take_app, <- app_assoc. do 2 f_equal.
      rewrite length_app, length_take. f_equal. lia. }
  rewrite Hrows. cbn [app length]. by rewrite Nat.sub_0_r.
Qed.

Lemma NoDup_rowMajor startRow startCol blockWidth blockHeight :
  NoDup (rowMajor startRow startCol blockWidth blockHeight).
Proof.
  unfold rowMajor. apply NoDup_bind; [| |apply NoDup_range].
  - intros r1 r2 pos _ _ (c1 & -> & _)%list_elem_of_fmap
                         (c2 & [= ? ?] & _)%list_elem_of_fmap. lia.
  - intros r _. apply NoDup_fmap_range. intros i j [= ?]. lia.
Qed.

Lemma length_rowMajor startRow startCol blockWidth blockHeight :
  length (rowMajor startRow startCol blockWidth blockHeight)
  = (Z.to_nat blockHeight * Z.to_nat blockWidth)%nat.
Proof.
  unfold rowMajor.
  rewrite (length_bind_const _ _ (Z.to_nat blockWidth)).
  - rewrite length_range. f_equal. lia.
  - intros r. rewrite length_fmap, length_range. lia.
Qed.

Lemma getValidBlockDimensions_area n blk :
  blk ∈ getValidBlockDimensions n →
  0 < width blk ∧ 0 < height blk ∧ width blk * height blk = n.
Proof.
  unfold getValidBlockDimensions. intros H.
  repeat (apply elem_of_app in H as [H|H]);
    match type of H with
    | _ ∈ (if ?b then _ else _) =>
        destruct b eqn:E; [apply Z.eqb_eq in E|by apply elem_of_nil in H]
    end;
    repeat (apply elem_of_cons in H as [->|H]); try done;
    by apply elem_of_nil in H.
Qed.

Lemma block_wellFormed word boardSize p :
  p ∈ generateBlockPlacements word boardSize → wellFormedFor word p.
Proof.
  unfold generateBlockPlacements. cbv zeta. intros H. enum_cases H.
  apply getValidBlockDimensions_area in Hx as (Hw & Hh & Harea).
  unfold wellFormedFor. cbn [positions type].
  rewrite generateBlockPositions_prefix. split.
  - eapply sublist_NoDup; [apply NoDup_rowMajor|apply sublist_take].
  - left. split; [done|].
    rewrite length_take, length_rowMajor. unfold wlen in *. nia.
Qed.

Lemma generatePossiblePlacements_wellFormed word alignment boardSize p :
  p ∈ generatePossiblePlacements word alignment boardSize →
  wellFormedFor word p.
Proof.
  unfold generatePossiblePlacements. cbv zeta. intros H.
  repeat (apply elem_of_app in H as [H|H]);
    (case_match; [|by apply elem_of_nil in H]);
    eauto using horizontal_wellFormed, vertical_wellFormed,
      diagonal_wellFormed, bendStraight_wellFormed, bendDiagonal_wellFormed,
      block_wellFormed.
Qed.

(** ** Letters *)

Lemma get_list_ascii (word : string) (k : nat) :
  String.get k word = list_ascii_of_string word !! k.
Proof.
  revert k. induction word as [|c word IH]; intros k; [by destruct k|].
  destruct k as [|k]; [done|]. apply IH.
Qed.

Lemma length_letters word : length (letters word) = String.length word.
Proof.
  unfold letters. rewrite length_fmap.
  induction word as [|c word IH]; [done|]. simpl. by rewrite IH.
Qed.

Lemma charAt_letters word (k : nat) :
  charAt word (Z.of_nat k) = letters word !! k.
Proof.
  unfold charAt, letters.
  replace (Z.of_nat k <? 0) with false by (symmetry; apply Z.ltb_ge; lia).
  rewrite Nat2Z.id, get_list_ascii, list_lookup_fmap.
  by destruct (list_ascii_of_string word !! k).
Qed.

Lemma letterAt_spelled direction word (k : nat) :
  (k < String.length word)%nat →
  letterAt direction word (Z.of_nat k) = spelled direction word !! k.
Proof.
  intros Hk. unfold letterAt, spelled.
  destruct (String.eqb direction "backward"); [|apply charAt_letters].
  rewrite reverse_lookup by (by rewrite length_letters).
  rewrite length_letters, <- charAt_letters. f_equal. unfold wlen. lia.
Qed.

Lemma spelled_nonempty direction word (k : nat) letter :
  spelled direction word !! k = Some letter → letter ≠ "".
Proof.
  assert (∀ l, l ∈ letters word → l ≠ "") as Hl.
  { unfold letters. by intros l (c & -> & _)%list_elem_of_fmap. }
  unfold spelled. intros H%list_elem_of_lookup_2.
  destruct (String.eqb direction "backward"); [|by apply Hl].
  by apply Hl, elem_of_reverse.
Qed.

Lemma length_spelled direction word :
  length (spelled direction word) = String.length word.
Proof.
  unfold spelled. destruct (String.eqb direction "backward");
    by rewrite ?length_reverse, length_letters.
Qed.

Lemma strictNe_false a b : strictNe a b = false ↔ a = b.
Proof.
  destruct a as [s|], b as [s'|]; simpl; try (split; congruence).
  rewrite negb_false_iff, String.eqb_eq. split; congruence.
Qed.

Lemma getLetterForPosition_drawsNothing word i direction t :
  drawsNothing direction →
  getLetterForPosition word i direction t
  = Return (letterAt direction word i, t).
Proof. by intros [-> | ->]. Qed.

(** ** Collision check and write in the modes that draw nothing *)

Lemma canPlaceWord_from_accepts i board word rest direction t t' :
  drawsNothing direction →
  canPlaceWord_from i board word rest direction t = Return (true, t') →
  ∀ (k : nat) pos,
    rest !! k = Some pos →
    ∃ cell, readCell board pos = Return cell
            ∧ (cell = Some ""
               ∨ cell = letterAt direction word (i + Z.of_nat k)).
Proof.
  intros Hdir. revert i t.
  induction rest as [|pos0 rest IH]; intros i t Hcan k pos Hk; [done|].
  cbn [canPlaceWord_from] in Hcan. rewrite bind_eq in Hcan.
  unfold lift in Hcan.
  destruct (readCell board pos0) as [cell|e] eqn:Hread; [|done].
  rewrite bind_eq, getLetterForPosition_drawsNothing in Hcan by done.
  destruct (strictNe cell (Some "") && strictNe cell _) eqn:Hrej; [done|].
  destruct k as [|k].
  - injection Hk as <-. exists cell. split; [done|].
    rewrite Z.add_0_r.
    apply andb_false_iff in Hrej as [H%strictNe_false|H%strictNe_false];
      [by left|by right].
  - destruct (IH _ _ Hcan k pos Hk) as (cell' & Hread' & Hacc).
    exists cell'. split; [done|].
    by replace (i + Z.of_nat (S k)) with (i + 1 + Z.of_nat k) by lia.
Qed.

Lemma placeWord_from_effect i board word rest direction t board' t' :
  drawsNothing direction →
  placeWord_from i board word rest direction t = Return (board', t') →
  (∀ r c, Pos r c ∉ rest → cellAt board' r c = cellAt board r c)
  ∧ (NoDup rest →
     ∀ (k : nat) pos,
       rest !! k = Some pos →
       cellAt board' (row pos) (col pos)
       = Some (letterAt direction word (i + Z.of_nat k))).
Proof.
  intros Hdir. revert i board t.
  induction rest as [|pos0 rest IH]; intros i board t Hplace.
  - injection Hplace as <- <-. by split.
  - cbn [placeWord_from] in Hplace.
    rewrite bind_eq, getLetterForPosition_drawsNothing in Hplace by done.
    rewrite bind_eq in Hplace. unfold lift in Hplace.
    destruct (writeCell board pos0 _) as [board1|e] eqn:Hwrite; [|done].
    destruct (IH _ _ _ Hplace) as [Hother Hwritten]. split.
    + intros r c Hnot. rewrite Hother by (intros ?; apply Hnot; by right).
      rewrite (cellAt_writeCell _ _ _ _ _ _ Hwrite).
      rewrite decide_False; [done|].
      intros [-> ->]. apply Hnot. destruct pos0. by left.
    + intros [Hfresh Hnodup]%NoDup_cons k pos Hk. destruct k as [|k].
      * injection Hk as <-. rewrite Hother by (by destruct pos0).
        rewrite (cellAt_writeCell _ _ _ _ _ _ Hwrite).
        rewrite decide_True by done. by rewrite Z.add_0_r.
      * rewrite (Hwritten Hnodup k pos Hk). do 2 f_equal. lia.
Qed.

Lemma wellFormedFor_length word p :
  wellFormedFor word p → (length (positions p) ≤ String.length word)%nat.
Proof. intros [_ [[_ ->]|(_ & -> & ?)]]; unfold wlen in *; lia. Qed.

Lemma placeWordOnBoard_loop_drawsNothing
    remaining board word alignment boardSize t pl t' :
  drawsNothing (direction alignment) →
  placeWordOnBoard_loop remaining board word alignment boardSize t
  = Return (pl, t') →
  keepsLetters board (boardAfter pl)
  ∧ ∀ p, committed pl = Some p →
         p ∈ generatePossiblePlacements word alignment boardSize
         ∧ spelledOn (boardAfter pl) (direction alignment) word p.
Proof.
  intros Hdir. revert t.
  induction remaining as [|remaining IH]; intros t Hloop.
  - injection Hloop as <- <-. split; [by intros r c s|by intros p].
  - cbn [placeWordOnBoard_loop] in Hloop. cbv zeta in Hloop.
    destruct (Nat.eqb _ 0);
      [injection Hloop as <- <-; split; [by intros r c s|by intros p]|].
    rewrite bind_eq in Hloop.
    destruct (Math_random t) as [[s t1]|e]; [|done].
    destruct (_ !! _) as [p|] eqn:Hp; [|done].
    rewrite bind_eq in Hloop.
    destruct (canPlaceWord board word p (direction alignment) t1)
      as [[[|] t2]|e] eqn:Hcan; [|by eapply IH|done].
    rewrite bind_eq in Hloop.
    destruct (placeWord board word p (direction alignment) t2)
      as [[board' t3]|e] eqn:Hplace; [|done].
    injection Hloop as <- <-. cbn [boardAfter committed].
    apply list_elem_of_lookup_2 in Hp.
    destruct (generatePossiblePlacements_wellFormed _ _ _ _ Hp) as [Hnodup _].
    destruct (placeWord_from_effect _ _ _ _ _ _ _ _ Hdir Hplace)
      as [Hother Hwritten].
    specialize (Hwritten Hnodup).
    pose proof (canPlaceWord_from_accepts _ _ _ _ _ _ _ Hdir Hcan) as Hacc.
    split.
    + intros r c letter Hcell Hs.
      destruct (decide (Pos r c ∈ positions p)) as [Hin|Hout];
        [|by rewrite Hother].
      apply list_elem_of_lookup_1 in Hin as [k Hk].
      pose proof (Hwritten k _ Hk) as Hw. cbn [row col] in Hw. rewrite Hw.
      destruct (Hacc k _ Hk) as (cell & Hread & Hcell').
      rewrite readCell_cellAt in Hread by (cbn [row col]; by rewrite Hcell).
      cbn [row col] in Hread. rewrite Hcell in Hread.
      injection Hread as <-. cbn [default] in Hcell'.
      destruct Hcell' as [[= ->]|<-]; done.
    + intros p' [= <-]. split; [done|]. intros k pos Hk.
      by rewrite (Hwritten k pos Hk).
Qed.

Lemma letterAt_is_letter direction word (k : nat) :
  (k < String.length word)%nat →
  ∃ s, letterAt direction word (Z.of_nat k) = Some s ∧ s ≠ "".
Proof.
  intros Hk. rewrite letterAt_spelled by done.
  destruct (lookup_lt_is_Some_2 (spelled direction word) k) as [s Hs];
    [by rewrite length_spelled|].
  exists s. split; [done|]. by eapply spelled_nonempty.
Qed.

Lemma placeWords_drawsNothing board words alignment boardSize t run t' :
  drawsNothing (direction alignment) →
  placeWords board words alignment boardSize t = Return (run, t') →
  keepsLetters board (finalBoard run)
  ∧ ∀ word pl p,
      (word, pl) ∈ history run → committed pl = Some p →
      p ∈ generatePossiblePlacements word alignment boardSize
      ∧ spelledOn (finalBoard run) (direction alignment) word p.
Proof.
  intros Hdir. revert board t run.
  induction words as [|word rest IH]; intros board t run Hrun.
  - injection Hrun as <- <-. split; [by intros r c s|].
    intros word pl p Hin. by apply elem_of_nil in Hin.
  - cbn [placeWords] in Hrun. rewrite bind_eq in Hrun.
    destruct (placeWordOnBoard board word alignment boardSize t)
      as [[pl1 t1]|e] eqn:Hfirst; [|done].
    rewrite bind_eq in Hrun.
    destruct (placeWords (boardAfter pl1) rest alignment boardSize t1)
      as [[run' t2]|e] eqn:Hrest; [|done].
    injection Hrun as <- <-. cbn [finalBoard history].
    destruct (placeWordOnBoard_loop_drawsNothing _ _ _ _ _ _ _ _ Hdir Hfirst)
      as [Hkeep1 Hspell1].
    destruct (IH _ _ _ Hrest) as [Hkeep Hspell].
    split; [intros r c s Hcell Hs; apply Hkeep; [by apply Hkeep1|done]|].
    intros w pl p [[= -> ->]|Hin]%elem_of_cons Hcommitted;
      [|by eapply Hspell].
    destruct (Hspell1 p Hcommitted) as [Hp Hon]. split; [done|].
    intros k pos Hk.
    pose proof (generatePossiblePlacements_wellFormed _ _ _ _ Hp) as Hwf.
    apply wellFormedFor_length in Hwf.
    destruct (letterAt_is_letter (direction alignment) word k) as (s & Hs & Hne).
    { apply lookup_lt_Some in Hk. lia. }
    rewrite Hs. apply Hkeep; [|done]. by rewrite (Hon k pos Hk), Hs.
Qed.

(** Reading the cells of a committed placement off the final board gives
    the letters the word spells, as far as the placement has cells. *)
Lemma committed_cells_spell board direction word p :
  (length (positions p) ≤ String.length word)%nat →
  spelledOn board direction word p →
  readCell board <$> positions p
  = holds <$> take (length (positions p)) (spelled direction word).
Proof.
  intros Hlen Hon. apply list_eq. intros k. rewrite !list_lookup_fmap.
  destruct (positions p !! k) as [pos|] eqn:Hk.
  - pose proof (lookup_lt_Some _ _ _ Hk) as Hlt.
    rewrite lookup_take_lt by done.
    rewrite <- letterAt_spelled by lia.
    specialize (Hon k pos Hk).
    destruct (letterAt_is_letter direction word k) as (s & Hs & _); [lia|].
    rewrite Hs in *. cbn [fmap option_fmap option_map].
    rewrite readCell_cellAt by (by rewrite Hon). by rewrite Hon.
  - apply lookup_ge_None in Hk. by rewrite lookup_take_ge.
Qed.

(** ** Claims about the letters on the board *)

Lemma generateWordsOnBoard_returned boardSize alignment (ws : list string)
    t run t' :
  generateWordsOnBoard boardSize (wordsArr ws) alignment t = Return (run, t') →
  ∃ boardSize' alignment',
    toSize boardSize = Some boardSize'
    ∧ toAlignment alignment = Some alignment'
    ∧ placeWords (createEmptyBoard boardSize') ws alignment' boardSize' t
      = Return (run, t').
Proof.
  unfold generateWordsOnBoard. rewrite bind_eq. unfold lift.
  destruct (validateInputs boardSize (wordsArr ws) alignment) as [[]|e] eqn:Hv;
    [|done].
  destruct (validateInputs_views _ _ _ Hv) as [[bs Hbs] [al Hal]].
  unfold wordsArr. rewrite Hbs, Hal, toWords_strings. eauto.
Qed.

Lemma toAlignment_direction alignment alignment' d :
  toAlignment alignment = Some alignment' →
  getProp alignment "direction" = JStr d →
  direction alignment' = d.
Proof.
  unfold toAlignment. intros H Hd. rewrite Hd in H. by injection H as <-.
Qed.

(** In the modes 'forward' and 'backward' a run never changes a letter: a
    cell that holds a letter at the start of [placeWords] holds the same
    letter on the board returned. *)
Lemma drawsNothing_keeps_letters board words alignment boardSize t run t' :
  drawsNothing (direction alignment) →
  placeWords board words alignment boardSize t = Return (run, t') →
  keepsLetters board (finalBoard run).
Proof. intros Hdir Hrun. by eapply placeWords_drawsNothing. Qed.

(** C2, the claim as stated fails: with the bent-diagonal shape enabled, the
    word "AB" is placed with success in mode 'forward' on a single cell,
    which reads "A" and not "AB". *)
Lemma bent_diagonal_placement_reads_one_letter :
  ∃ run pl p,
    generateWordsOnBoard (boardSizeObj 1 1) (wordsArr ["AB"])
      (alignmentObj ["bendsDiagonal"] "forward") [] = Return (run, [])
    ∧ history run = [ ("AB", pl) ]
    ∧ success (result pl) = true
    ∧ committed pl = Some p
    ∧ readCell (finalBoard run) <$> positions p = [ holds "A" ]
    ∧ holds <$> letters "AB" = [ holds "A"; holds "B" ].
Proof.
  eexists _, _, _. split_and!;
    [vm_compute; reflexivity|reflexivity..].
Qed.

(** C2, amended.  On every board returned in mode 'forward', the cells of a
    committed placement of any shape but the bent diagonal, read in position
    order, hold the letters of the word in order; in mode 'backward' they
    hold the letters of the word reversed.  A committed bent-diagonal
    placement has one cell, which holds the first of those letters. *)
Theorem placed_words_read_back boardSize alignment d (ws : list string)
    t run t' word pl p :
  getProp alignment "direction" = JStr d →
  generateWordsOnBoard boardSize (wordsArr ws) alignment t = Return (run, t') →
  (word, pl) ∈ history run → committed pl = Some p →
  (d = "forward" → type p ≠ "bend-diagonal-down-up" →
   readCell (finalBoard run) <$> positions p = holds <$> letters word)
  ∧ (d = "backward" → type p ≠ "bend-diagonal-down-up" →
     readCell (finalBoard run) <$> positions p
     = holds <$> reverse (letters word))
  ∧ (d = "forward" → type p = "bend-diagonal-down-up" →
     readCell (finalBoard run) <$> positions p
     = holds <$> take 1 (letters word))
  ∧ (d = "backward" → type p = "bend-diagonal-down-up" →
     readCell (finalBoard run) <$> positions p
     = holds <$> take 1 (reverse (letters word))).
Proof.
  intros Hd Hgen Hin Hcommitted.
  destruct (generateWordsOnBoard_returned _ _ _ _ _ _ Hgen)
    as (bs & al & Hbs & Hal & Hrun).
  pose proof (toAlignment_direction _ _ _ Hal Hd) as Hdir.
  assert (drawsNothing d →
          wellFormedFor word p
          ∧ readCell (finalBoard run) <$> positions p
            = holds <$> take (length (positions p)) (spelled d word))
    as Hspelled.
  { intros Hnothing. rewrite <- Hdir in Hnothing.
    destruct (placeWords_drawsNothing _ _ _ _ _ _ _ Hnothing Hrun)
      as [_ Hall].
    destruct (Hall _ _ _ Hin Hcommitted) as [Hp Hon]. rewrite Hdir in Hon.
    pose proof (generatePossiblePlacements_wellFormed _ _ _ _ Hp) as Hwf.
    split; [done|].
    apply committed_cells_spell; [by apply wellFormedFor_length|done]. }
  assert (∀ l : list string,
            length l = String.length word →
            take (String.length word) l = l) as Hall
    by (intros l Hl; apply take_ge; lia).
  pose proof (length_letters word) as Hletters.
  split_and!; intros -> Htype.
  - destruct Hspelled as [[_ [[_ Hlen]|[? _]]] ->]; [by left| |done].
    rewrite Hlen. by apply (f_equal (fmap holds)), Hall.
  - destruct Hspelled as [[_ [[_ Hlen]|[? _]]] ->]; [by right| |done].
    rewrite Hlen. apply (f_equal (fmap holds)), Hall.
    by rewrite length_reverse.
  - destruct Hspelled as [[_ [[? _]|(_ & Hlen & _)]] ->]; [by left|done|].
    by rewrite Hlen.
  - destruct Hspelled as [[_ [[? _]|(_ & Hlen & _)]] ->]; [by right|done|].
    by rewrite Hlen.
Qed.

Lemma placed_words_read_back_witness :
  ∃ run p pl,
    generateWordsOnBoard (boardSizeObj 5 1) (wordsArr ["CAT"])
      (alignmentObj ["horizontal"] "backward") [ Sample 1 1 ]
    = Return (run, [])
    ∧ ("CAT", pl) ∈ history run
    ∧ committed pl = Some p
    ∧ positions p = [ Pos 0 1; Pos 0 2; Pos 0 3 ]
    ∧ readCell (finalBoard run) <$> positions p
      = [ holds "T"; holds "A"; holds "C" ].
Proof.
  destruct (generateWordsOnBoard (boardSizeObj 5 1) (wordsArr ["CAT"])
              (alignmentObj ["horizontal"] "backward") [ Sample 1 1 ])
    as [[run t']|e] eqn:Hgen; [|by vm_compute in Hgen].
  assert (∃ pl, history run = [ ("CAT", pl) ]
                ∧ committed pl
                  = Some (mkPlacement "horizontal"
                            [ Pos 0 1; Pos 0 2; Pos 0 3 ] None)
                ∧ t' = []) as (pl & Hhist & Hcommitted & ->).
  { vm_compute in Hgen. injection Hgen as <- <-. by eexists. }
  exists run, (mkPlacement "horizontal" [ Pos 0 1; Pos 0 2; Pos 0 3 ] None), pl.
  assert (("CAT", pl) ∈ history run) as Hin by (rewrite Hhist; by left).
  split_and!; [done..|].
  exact (proj1 (proj2 (placed_words_read_back (boardSizeObj 5 1)
                         (alignmentObj ["horizontal"] "backward") "backward"
                         ["CAT"] _ run [] "CAT" pl _ eq_refl Hgen Hin
                         Hcommitted))
           eq_refl ltac:(done)).
Defined.

(** C1, evaluated where the claim fails.  On a 2 × 1 board with only the
    horizontal shape, mode 'forwardBackward', the word "AB" is placed twice.
    The first placement writes "A" into cell (0, 0).  For the second, the
    collision check draws the forward letter for both cells and accepts; the
    write then draws anew, gets the backward letters, and stores "B" into
    cell (0, 0): the letter of the cell has changed. *)
Theorem forwardBackward_overwrites_a_letter :
  ∃ run pl1 pl2,
    generateWordsOnBoard (boardSizeObj 2 1) (wordsArr ["AB"; "AB"])
      (alignmentObj ["horizontal"] "forwardBackward")
      [ Sample 0 0; Sample 0 0; Sample 0 0; Sample 0 0; Sample 0 0;
        Sample 0 0; Sample 0 0; Sample 0 0; Sample 1 0; Sample 1 0 ]
    = Return (run, [])
    ∧ history run = [ ("AB", pl1); ("AB", pl2) ]
    ∧ success (result pl1) = true ∧ success (result pl2) = true
    ∧ readCell (boardAfter pl1) <$> [ Pos 0 0; Pos 0 1 ]
      = [ holds "A"; holds "B" ]
    ∧ readCell (boardAfter pl2) <$> [ Pos 0 0; Pos 0 1 ]
      = [ holds "B"; holds "A" ]
    ∧ finalBoard run = boardAfter pl2.
Proof.
  eexists _, _, _. split_and!;
    [vm_compute; reflexivity|reflexivity..].
Qed.

(** * Further properties of the generator *)

(** ** Histories *)

Lemma chained_committed board alignment boardSize h final word pl p :
  chained board alignment boardSize h final →
  (word, pl) ∈ h → committed pl = Some p →
  p ∈ generatePossiblePlacements word alignment boardSize.
Proof.
  revert board. induction h as [|entry h IH]; intros board Hchain Hin Hp;
    [by apply elem_of_nil in Hin|].
  destruct Hchain as [(_ & Hfail & Hok) Hrest].
  apply elem_of_cons in Hin as [<-|Hin]; [|by eapply IH].
  cbn [fst snd] in *. destruct (success (result pl)).
  - destruct Hok as (p' & Hp' & Hin'); [done|]. congruence.
  - destruct Hfail as (_ & Hnone & _); [done|]. congruence.
Qed.

Lemma placeWords_runSpec board words alignment boardSize t run t' :
  wellShaped boardSize board →
  placeWords board words alignment boardSize t = Return (run, t') →
  runSpec board words alignment boardSize run.
Proof.
  intros Hshape Hrun.
  destruct (returns_placeWords board words alignment boardSize Hshape t)
    as (run' & t'' & Hrun' & Hspec).
  congruence.
Qed.

(** X1. A call with an empty word list returns the board of
    [createEmptyBoard] untouched, warns about nothing and draws no random
    number; that board has exactly the cells of the rectangle
    [[0, height) × [0, width)], each holding the empty string. *)
Theorem empty_word_list_gives_empty_board boardSize alignment :
  validateInputs boardSize (wordsArr []) alignment = Return tt →
  ∃ boardSize',
    toSize boardSize = Some boardSize'
    ∧ (∀ t, generateWordsOnBoard boardSize (wordsArr []) alignment t
            = Return (mkRun (createEmptyBoard boardSize') [] [], t))
    ∧ ∀ r c,
        cellAt (createEmptyBoard boardSize') r c
        = if decide (0 ≤ r < height boardSize' ∧ 0 ≤ c < width boardSize')
          then Some (Some "") else None.
Proof.
  intros Hvalid.
  destruct (validateInputs_views _ _ _ Hvalid) as [[bs Hbs] [al Hal]].
  exists bs. split_and!; [done| |apply cellAt_createEmptyBoard].
  intros t. unfold generateWordsOnBoard. rewrite bind_eq, Hvalid.
  cbn [lift]. rewrite Hbs, Hal. reflexivity.
Qed.

Lemma empty_word_list_gives_empty_board_witness :
  validateInputs (boardSizeObj 2 1) (wordsArr [])
    (alignmentObj ["horizontal"] "scatter") = Return tt
  ∧ generateWordsOnBoard (boardSizeObj 2 1) (wordsArr [])
      (alignmentObj ["horizontal"] "scatter") [ Sample 1 1 ]
    = Return (mkRun (createEmptyBoard (mkSize 2 1)) [] [], [ Sample 1 1 ]).
Proof.
  split; [reflexivity|].
  destruct (empty_word_list_gives_empty_board (boardSizeObj 2 1)
              (alignmentObj ["horizontal"] "scatter") eq_refl)
    as (bs & Hbs & Hgen & _).
  injection Hbs as <-. apply Hgen.
Defined.

(** X2. The number of straight-line candidates: a word of length L has
    [height * (width - L + 1)] horizontal, [(height - L + 1) * width]
    vertical and [2 * (height - L + 1) * (width - L + 1)] diagonal
    candidates, a factor that is not positive counting as zero.  So a word
    longer than the board is wide has no horizontal candidate, one longer
    than the board is high no vertical one, and either excludes the
    diagonals. *)
Theorem line_candidate_counts word boardSize :
  length (generateHorizontalPlacements word boardSize)
  = (Z.to_nat (height boardSize)
     * Z.to_nat (width boardSize - wlen word + 1))%nat
  ∧ length (generateVerticalPlacements word boardSize)
    = (Z.to_nat (height boardSize - wlen word + 1)
       * Z.to_nat (width boardSize))%nat
  ∧ length (generateDiagonalPlacements word boardSize)
    = (2 * (Z.to_nat (height boardSize - wlen word + 1)
            * Z.to_nat (width boardSize - wlen word + 1)))%nat.
Proof.
  unfold generateHorizontalPlacements, generateVerticalPlacements,
    generateDiagonalPlacements.
  split_and!.
  - rewrite (length_bind_const _ _
               (Z.to_nat (width boardSize - wlen word + 1))).
    + rewrite length_range. f_equal. lia.
    + intros r. rewrite (length_bind_const _ _ 1%nat); [|done].
      rewrite length_range. lia.
  - rewrite (length_bind_const _ _ (Z.to_nat (width boardSize))).
    + rewrite length_range. f_equal. lia.
    + intros r. rewrite (length_bind_const _ _ 1%nat); [|done].
      rewrite length_range. lia.
  - rewrite length_app.
    rewrite (length_bind_const _ _
               (Z.to_nat (width boardSize - wlen word + 1))).
    + rewrite (length_bind_const _ _
                 (Z.to_nat (width boardSize - wlen word + 1))).
      * rewrite length_range. lia.
      * intros r. rewrite (length_bind_const _ _ 1%nat); [|done].
        rewrite length_range. lia.
    + intros r. rewrite (length_bind_const _ _ 1%nat); [|done].
      rewrite length_range. lia.
Qed.

(** X3. With no shape enabled a call still passes validation; every word
    then fails at once with 'No valid placements found', so the call returns
    the empty board, warns once per word in input order, and draws no random
    number. *)
Theorem no_shape_enabled_places_nothing w h d (ws : list string) t :
  generateWordsOnBoard (boardSizeObj w h) (wordsArr ws) (alignmentObj [] d) t
  = Return (mkRun (createEmptyBoard (mkSize w h))
              (warningFor <$> ws)
              ((fun word =>
                  (word, noCandidates (createEmptyBoard (mkSize w h))))
                 <$> ws),
            t).
Proof.
  unfold generateWordsOnBoard. rewrite bind_eq.
  change (validateInputs (boardSizeObj w h) (wordsArr ws) (alignmentObj [] d))
    with (Return (A:=unit) tt).
  cbn [lift]. unfold wordsArr. rewrite toWords_strings.
  change (toSize (boardSizeObj w h)) with (Some (mkSize w h)).
  change (toAlignment (alignmentObj [] d))
    with (Some (mkAlignment noLines d)).
  cbv beta iota zeta.
  generalize (createEmptyBoard (mkSize w h)) as board. intros board.
  induction ws as [|word ws IH]; [reflexivity|].
  cbn [placeWords]. rewrite bind_eq.
  change (placeWordOnBoard board word (mkAlignment noLines d) (mkSize w h) t)
    with (Return (noCandidates board, t)).
  cbv beta iota. rewrite bind_eq. cbn [boardAfter noCandidates].
  rewrite IH. reflexivity.
Qed.

(** ** Single-shape runs *)

(** X4. When the horizontal shape is the only one enabled, every word a run
    commits lies in a single row of the board, on consecutive columns in
    increasing order; when the vertical shape is the only one, in a single
    column on consecutive rows. *)
Theorem single_line_shape_runs boardSize alignment (ws : list string) t run t'
    boardSize' alignment' word pl p :
  toSize boardSize = Some boardSize' →
  toAlignment alignment = Some alignment' →
  generateWordsOnBoard boardSize (wordsArr ws) alignment t = Return (run, t') →
  (word, pl) ∈ history run → committed pl = Some p →
  (lines alignment' = horizontalOnly →
   ∃ r c, 0 ≤ r < height boardSize'
          ∧ 0 ≤ c ∧ c + wlen word ≤ width boardSize'
          ∧ positions p = (fun i => Pos r (c + i)) <$> range 0 (wlen word))
  ∧ (lines alignment' = verticalOnly →
     ∃ r c, 0 ≤ r ∧ r + wlen word ≤ height boardSize'
            ∧ 0 ≤ c < width boardSize'
            ∧ positions p = (fun i => Pos (r + i) c) <$> range 0 (wlen word)).
Proof.
  intros Hbs Hal Hgen Hin Hp.
  destruct (generateWordsOnBoard_returned _ _ _ _ _ _ Hgen)
    as (bs & al & Hbs' & Hal' & Hrun).
  assert (bs = boardSize') as -> by congruence.
  assert (al = alignment') as -> by congruence.
  pose proof (placeWords_runSpec _ _ _ _ _ _ _
                (createEmptyBoard_wellShaped boardSize') Hrun)
    as (_ & _ & Hchain & _).
  pose proof (chained_committed _ _ _ _ _ _ _ _ Hchain Hin Hp) as Hcand.
  unfold generatePossiblePlacements in Hcand. cbv zeta in Hcand.
  split; intros Hlines; rewrite Hlines in Hcand;
    cbn [horizontalOnly verticalOnly horizontal vertical diagonal
         bendsStraight bendsDiagonal block app] in Hcand;
    rewrite ?app_nil_r in Hcand.
  - unfold generateHorizontalPlacements in Hcand. enum_cases Hcand.
    eexists _, _. split_and!; [..|reflexivity]; lia.
  - unfold generateVerticalPlacements in Hcand. enum_cases Hcand.
    eexists _, _. split_and!; [..|reflexivity]; lia.
Qed.

Lemma single_line_shape_runs_witness :
  ∃ run pl p r c,
    generateWordsOnBoard (boardSizeObj 5 1) (wordsArr ["CAT"])
      (alignmentObj ["horizontal"] "forward") [ Sample 2 1 ] = Return (run, [])
    ∧ ("CAT", pl) ∈ history run ∧ committed pl = Some p
    ∧ 0 ≤ c ∧ c + 3 ≤ 5
    ∧ positions p = (fun i => Pos r (c + i)) <$> range 0 3.
Proof.
  destruct (generateWordsOnBoard (boardSizeObj 5 1) (wordsArr ["CAT"])
              (alignmentObj ["horizontal"] "forward") [ Sample 2 1 ])
    as [[run t']|e] eqn:Hgen; [|by vm_compute in Hgen].
  assert (∃ pl p, history run = [ ("CAT", pl) ] ∧ committed pl = Some p
                  ∧ t' = []) as (pl & p & Hhist & Hp & ->).
  { vm_compute in Hgen. injection Hgen as <- <-. by eexists _, _. }
  assert (("CAT", pl) ∈ history run) as Hin by (rewrite Hhist; by left).
  destruct (proj1 (single_line_shape_runs (boardSizeObj 5 1)
                     (alignmentObj ["horizontal"] "forward") ["CAT"] _ run []
                     (mkSize 5 1) (mkAlignment horizontalOnly "forward")
                     "CAT" pl p eq_refl eq_refl Hgen Hin Hp) eq_refl)
    as (r & c & _ & Hc0 & Hc1 & Hpos).
  exists run, pl, p, r, c. by split_and!.
Defined.

(** ** Direction strings *)

Lemma getLetterForPosition_default word i d :
  d ≠ "forward" → d ≠ "backward" → d ≠ "forwardBackward" → d ≠ "scatter" →
  getLetterForPosition word i d = getLetterForPosition word i "forward".
Proof.
  intros H1%String.eqb_neq H2%String.eqb_neq H3%String.eqb_neq
         H4%String.eqb_neq.
  unfold getLetterForPosition. by rewrite H1, H2, H3, H4.
Qed.

Lemma canPlaceWord_from_ext i board word rest d d' :
  (∀ i, getLetterForPosition word i d = getLetterForPosition word i d') →
  canPlaceWord_from i board word rest d
  = canPlaceWord_from i board word rest d'.
Proof.
  intros Hletter. revert i. induction rest as [|pos rest IH]; intros i; [done|].
  cbn [canPlaceWord_from]. by rewrite Hletter, IH.
Qed.

Lemma placeWord_from_ext i board word rest d d' t :
  (∀ i, getLetterForPosition word i d = getLetterForPosition word i d') →
  placeWord_from i board word rest d t = placeWord_from i board word rest d' t.
Proof.
  intros Hletter. revert i board t.
  induction rest as [|pos rest IH]; intros i board t; [done|].
  cbn [placeWord_from]. rewrite Hletter, !bind_eq.
  destruct (getLetterForPosition word i d' t) as [[letter t1]|e]; [|done].
  rewrite !bind_eq. destruct (lift _ t1) as [[board' t2]|e]; [|done].
  apply IH.
Qed.

Lemma placeWords_direction_ext board words l d d' boardSize t :
  (∀ word i, getLetterForPosition word i d = getLetterForPosition word i d') →
  placeWords board words (mkAlignment l d) boardSize t
  = placeWords board words (mkAlignment l d') boardSize t.
Proof.
  intros Hletter. revert board t.
  induction words as [|word rest IH]; intros board t; [done|].
  cbn [placeWords].
  assert (∀ n t, placeWordOnBoard_loop n board word (mkAlignment l d)
                   boardSize t
                 = placeWordOnBoard_loop n board word (mkAlignment l d')
                     boardSize t) as Hloop.
  { clear IH t. induction n as [|n IHn]; intros t; [done|].
    cbn [placeWordOnBoard_loop]. cbv zeta.
    rewrite (generatePossiblePlacements_by_length word word
               (mkAlignment l d) (mkAlignment l d') boardSize eq_refl eq_refl).
    destruct (Nat.eqb _ 0); [done|].
    rewrite !bind_eq. destruct (Math_random t) as [[s t1]|e]; [|done].
    destruct (_ !! _) as [p|]; [|done].
    cbn [direction]. unfold canPlaceWord, placeWord.
    rewrite (canPlaceWord_from_ext _ _ _ _ d d') by done.
    rewrite !bind_eq.
    destruct (canPlaceWord_from 0 board word (positions p) d' t1)
      as [[[|] t2]|e]; [|apply IHn|done].
    rewrite !bind_eq.
    by rewrite (placeWord_from_ext _ _ _ _ d d') by done. }
  rewrite !bind_eq. unfold placeWordOnBoard. rewrite Hloop.
  destruct (placeWordOnBoard_loop _ _ _ _ _ t) as [[pl t1]|e]; [|done].
  rewrite !bind_eq. by rewrite IH.
Qed.

(** X5. Validation accepts any string as direction, and a direction that is
    none of 'forward', 'backward', 'forwardBackward', 'scatter' makes the
    whole call behave exactly as 'forward' does: same outcome on every random
    tape. *)
Theorem unrecognised_direction_acts_as_forward boardSize words shapes d t :
  d ≠ "forward" → d ≠ "backward" → d ≠ "forwardBackward" → d ≠ "scatter" →
  generateWordsOnBoard boardSize words
    (JObj [ ("lines", shapes); ("direction", JStr d) ]) t
  = generateWordsOnBoard boardSize words
      (JObj [ ("lines", shapes); ("direction", JStr "forward") ]) t.
Proof.
  intros H1 H2 H3 H4. unfold generateWordsOnBoard. rewrite !bind_eq.
  change (validateInputs boardSize words
            (JObj [ ("lines", shapes); ("direction", JStr d) ]))
    with (validateInputs boardSize words
            (JObj [ ("lines", shapes); ("direction", JStr "forward") ])).
  destruct (lift _ t) as [[[] t1]|e]; [|done].
  destruct (toSize boardSize) as [bs|]; [|done].
  destruct (toWords words) as [ws|]; [|done].
  cbn [toAlignment getProp assoc String.eqb Ascii.eqb Bool.eqb]. cbv zeta.
  apply placeWords_direction_ext. intros word i.
  by apply getLetterForPosition_default.
Qed.

Lemma unrecognised_direction_acts_as_forward_witness :
  generateWordsOnBoard (boardSizeObj 3 1) (wordsArr ["AB"])
    (JObj [ ("lines", JObj [ ("horizontal", JBool true) ]);
            ("direction", JStr "sideways") ]) [ Sample 1 1 ]
  = generateWordsOnBoard (boardSizeObj 3 1) (wordsArr ["AB"])
      (JObj [ ("lines", JObj [ ("horizontal", JBool true) ]);
              ("direction", JStr "forward") ]) [ Sample 1 1 ].
Proof.
  apply (unrecognised_direction_acts_as_forward (boardSizeObj 3 1)
           (wordsArr ["AB"]) (JObj [ ("horizontal", JBool true) ]) "sideways");
    discriminate.
Defined.

(** ** The retry loop *)




Lemma strictNe_true a b : strictNe a b = true → a ≠ b.
Proof.
  intros H Heq. apply strictNe_false in Heq. congruence.
Qed.

Lemma canPlaceWord_from_decides boardSize board word rest direction i t :
  drawsNothing direction → wellShaped boardSize board →
  Forall (onBoard boardSize) rest →
  ∃ ok, canPlaceWord_from i board word rest direction t = Return (ok, t)
        ∧ (ok = true
           ↔ ∀ (k : nat) pos,
               rest !! k = Some pos →
               cellAccepts board direction word (i + Z.of_nat k) pos).
Proof.
  intros Hdir Hshape Hrest. revert i.
  induction Hrest as [|pos rest Hpos _ IH]; intros i.
  - exists true. split; [done|]. split; [by intros _ k pos|done].
  - cbn [canPlaceWord_from]. rewrite bind_eq.
    rewrite readCell_cellAt by (by apply Hshape). cbn [lift].
    rewrite bind_eq, getLetterForPosition_drawsNothing by done.
    set (cell := default None (cellAt board (row pos) (col pos))).
    destruct (strictNe cell (Some "") && strictNe cell _) eqn:Hrej.
    + exists false. split; [done|]. split; [done|]. intros Hall. exfalso.
      apply andb_prop in Hrej as [H1%strictNe_true H2%strictNe_true].
      destruct (Hall 0%nat pos eq_refl) as [Hc|Hc];
        rewrite readCell_cellAt in Hc by (by apply Hshape);
        injection Hc as Hc; rewrite ?Z.add_0_r in Hc; fold cell in Hc;
        congruence.
    + destruct (IH (i + 1)) as (ok & Hok & Hiff). exists ok.
      split; [done|]. rewrite Hiff. split.
      * intros Hall [|k] pos' Hk.
        -- injection Hk as <-. unfold cellAccepts.
           rewrite readCell_cellAt by (by apply Hshape). fold cell.
           rewrite Z.add_0_r.
           apply andb_false_iff in Hrej as [H%strictNe_false|H%strictNe_false];
             rewrite H; [by left|by right].
        -- replace (i + Z.of_nat (S k)) with (i + 1 + Z.of_nat k) by lia.
           by apply Hall.
      * intros Hall k pos' Hk.
        replace (i + 1 + Z.of_nat k) with (i + Z.of_nat (S k)) by lia.
        by apply Hall.
Qed.

(** X7. In the modes 'forward' and 'backward' the collision check draws no
    random number and accepts a placement exactly when each of its cells is
    empty or already holds the letter the word puts there; one cell holding
    another letter makes it refuse. *)
Theorem collision_check_accepts_matching_cells
    boardSize board word p direction t :
  drawsNothing direction → wellShaped boardSize board →
  placementOnBoard boardSize p →
  ∃ ok, canPlaceWord board word p direction t = Return (ok, t)
        ∧ (ok = true
           ↔ ∀ (k : nat) pos,
               positions p !! k = Some pos →
               cellAccepts board direction word (Z.of_nat k) pos).
Proof.
  intros Hdir Hshape Hon.
  destruct (canPlaceWord_from_decides boardSize board word (positions p)
              direction 0 t Hdir Hshape Hon) as (ok & Hok & Hiff).
  exists ok. split; [done|]. rewrite Hiff.
  split; intros Hall k pos Hk; specialize (Hall k pos Hk);
    by rewrite ?Z.add_0_l in *.
Qed.

Lemma collision_check_accepts_matching_cells_witness :
  drawsNothing "forward"
  ∧ ∃ ok,
      canPlaceWord (createEmptyBoard (mkSize 3 1)) "AB"
        (mkPlacement "horizontal" [ Pos 0 1; Pos 0 2 ] None) "forward" []
      = Return (ok, []).
Proof.
  split; [by left|].
  assert (placementOnBoard (mkSize 3 1)
            (mkPlacement "horizontal" [ Pos 0 1; Pos 0 2 ] None)) as Hon
    by (repeat constructor; cbn; lia).
  destruct (collision_check_accepts_matching_cells (mkSize 3 1)
              (createEmptyBoard (mkSize 3 1)) "AB"
              (mkPlacement "horizontal" [ Pos 0 1; Pos 0 2 ] None) "forward" []
              (or_introl eq_refl) (createEmptyBoard_wellShaped _) Hon)
    as (ok & Hok & _).
  by exists ok.
Defined.





(** ** What the cells of a generated board hold *)

Lemma shuffle_Permutation chars t shuffled t' :
  shuffle (length chars) chars t = Return (shuffled, t') → shuffled ≡ₚ chars.
Proof.
  remember (length chars) as n eqn:Hn. revert chars Hn t shuffled t'.
  induction n as [|n IH]; intros chars Hn t shuffled t' Hs.
  - injection Hs as <- <-. by destruct chars.
  - cbn [shuffle] in Hs. rewrite bind_eq in Hs.
    destruct (Math_random t) as [[s t1]|e]; [|done].
    assert (floorTimes s (length chars) < length chars)%nat as Hlt
      by (apply floorTimes_lt; lia).
    apply lookup_lt_is_Some_2 in Hlt as [c Hc]. rewrite Hc in Hs.
    rewrite bind_eq in Hs.
    destruct (shuffle n (delete _ chars) t1) as [[rest t2]|e] eqn:Hrest;
      [|done].
    injection Hs as <- <-.
    rewrite (delete_Permutation _ _ _ Hc). constructor.
    eapply IH; [|done].
    rewrite length_delete by eauto. lia.
Qed.

Lemma charAt_letter word i :
  0 ≤ i < wlen word → ∃ s, charAt word i = Some s ∧ s ∈ letters word.
Proof.
  intros Hi. rewrite <- (Z2Nat.id i) by lia. rewrite charAt_letters.
  destruct (lookup_lt_is_Some_2 (letters word) (Z.to_nat i)) as [s Hs].
  { rewrite length_letters. unfold wlen in Hi. lia. }
  exists s. split; [done|]. by eapply list_elem_of_lookup_2.
Qed.

Lemma getLetterForPosition_letter word i direction t letter t' :
  0 ≤ i < wlen word →
  getLetterForPosition word i direction t = Return (letter, t') →
  ∃ s, letter = Some s ∧ s ∈ letters word.
Proof.
  intros Hi. unfold getLetterForPosition.
  assert (0 ≤ wlen word - 1 - i < wlen word) as Hi' by lia.
  destruct (charAt_letter word i Hi) as (s1 & Hs1 & Hin1).
  destruct (charAt_letter word _ Hi') as (s2 & Hs2 & Hin2).
  repeat case_match; try (intros [= <- <-]; by eauto).
  - rewrite bind_eq. destruct (Math_random t) as [[s t1]|e]; [|done].
    intros [= <- <-]. case_match; by eauto.
  - rewrite bind_eq.
    destruct (sortRandomly _ t) as [[shuffled t1]|e] eqn:Hsort; [|done].
    intros [= <- <-]. apply shuffle_Permutation in Hsort.
    destruct (charAt_letter (string_of_list_ascii shuffled) i) as (s & Hs & Hin).
    { unfold wlen in *.
      rewrite <- (list_ascii_of_string_of_list_ascii shuffled) in Hsort.
      apply Permutation_length in Hsort.
      rewrite <- !length_letters in *. unfold letters in *.
      rewrite !length_fmap in *. lia. }
    exists s. split; [done|]. unfold letters in *.
    rewrite list_ascii_of_string_of_list_ascii in Hin.
    by rewrite <- Hsort.
Qed.

(** A property of boards that every write of a letter of the word at a
    position on the board preserves is preserved by [placeWord]. *)
Lemma placeWord_from_preserves (I : Board → Prop) boardSize word direction
    rest i board t board' t' :
  (∀ b pos s b', I b → onBoard boardSize pos → s ∈ letters word →
                 writeCell b pos (Some s) = Return b' → I b') →
  Forall (onBoard boardSize) rest →
  0 ≤ i → i + Z.of_nat (length rest) ≤ wlen word →
  I board →
  placeWord_from i board word rest direction t = Return (board', t') →
  I board'.
Proof.
  intros Hstep Hrest. revert i board t.
  induction Hrest as [|pos rest Hpos _ IH]; intros i board t Hi Hlen HI Hplace.
  - by injection Hplace as <- <-.
  - cbn [placeWord_from length] in *. rewrite bind_eq in Hplace.
    destruct (getLetterForPosition word i direction t) as [[letter t1]|e]
      eqn:Hletter; [|done].
    apply getLetterForPosition_letter in Hletter as (s & -> & Hs); [|lia].
    rewrite bind_eq in Hplace. unfold lift in Hplace.
    destruct (writeCell board pos (Some s)) as [board1|e] eqn:Hwrite; [|done].
    eapply (IH (i + 1) board1 t1); [lia|lia| |done]. by eapply Hstep.
Qed.

Lemma placeWords_preserves (I : Board → Prop) (W : string → Prop)
    boardSize alignment words board t run t' :
  (∀ word b pos s b', W word → I b → onBoard boardSize pos →
                      s ∈ letters word →
                      writeCell b pos (Some s) = Return b' → I b') →
  Forall W words → I board →
  placeWords board words alignment boardSize t = Return (run, t') →
  I (finalBoard run).
Proof.
  intros Hstep Hwords. revert board t run.
  induction Hwords as [|word rest Hword _ IH]; intros board t run HI Hrun.
  - by injection Hrun as <- <-.
  - cbn [placeWords] in Hrun. rewrite bind_eq in Hrun.
    destruct (placeWordOnBoard board word alignment boardSize t)
      as [[pl t1]|e] eqn:Hfirst; [|done].
    rewrite bind_eq in Hrun.
    destruct (placeWords (boardAfter pl) rest alignment boardSize t1)
      as [[run' t2]|e] eqn:Hrest; [|done].
    injection Hrun as <- <-. cbn [finalBoard].
    eapply IH; [|done]. clear Hrest IH.
    unfold placeWordOnBoard in Hfirst. revert t Hfirst.
    induction maxAttempts as [|n IHn]; intros t Hfirst.
    + by injection Hfirst as <- <-.
    + cbn [placeWordOnBoard_loop] in Hfirst. cbv zeta in Hfirst.
      destruct (Nat.eqb _ 0); [by injection Hfirst as <- <-|].
      rewrite bind_eq in Hfirst.
      destruct (Math_random t) as [[s u1]|e]; [|done].
      destruct (_ !! _) as [p|] eqn:Hp; [|done].
      rewrite bind_eq in Hfirst.
      destruct (canPlaceWord board word p (direction alignment) u1)
        as [[[|] u2]|e]; [|by eapply IHn|done].
      rewrite bind_eq in Hfirst.
      destruct (placeWord board word p (direction alignment) u2)
        as [[board' u3]|e] eqn:Hplace; [|done].
      injection Hfirst as <- <-. cbn [boardAfter].
      apply list_elem_of_lookup_2 in Hp.
      pose proof (generatePossiblePlacements_onBoard _ _ _ _ Hp) as Hon.
      pose proof (generatePossiblePlacements_wellFormed _ _ _ _ Hp) as Hwf.
      apply wellFormedFor_length in Hwf.
      eapply (placeWord_from_preserves I boardSize word); [by eauto|exact Hon|
        done| |exact HI|exact Hplace].
      unfold wlen. lia.
Qed.

Lemma createEmptyBoard_rectangular boardSize :
  rectangular boardSize (createEmptyBoard boardSize).
Proof.
  unfold createEmptyBoard. split.
  - intros r. rewrite (lookup_foldl_insert (fun _ => foldl _ _ _)).
    destruct (decide (r ∈ _)) as [Hr|Hr]; rewrite elem_of_range in Hr.
    + split; [done|by eauto].
    + rewrite lookup_empty. split; [by intros [? [=]]|done].
  - intros r cells. rewrite (lookup_foldl_insert (fun _ => foldl _ _ _)).
    destruct (decide (r ∈ _)) as [Hr|Hr]; [|by rewrite lookup_empty].
    intros [= <-] c. rewrite (lookup_foldl_insert (fun _ => Some "")).
    destruct (decide (c ∈ _)) as [Hc|Hc]; rewrite elem_of_range in Hc.
    + split; [done|by eauto].
    + rewrite lookup_empty. split; [by intros [? [=]]|done].
Qed.

Lemma writeCell_rectangular boardSize board pos letter board' :
  rectangular boardSize board → onBoard boardSize pos →
  writeCell board pos letter = Return board' →
  rectangular boardSize board'.
Proof.
  intros [Hrows Hcols] [Hr Hc]. unfold writeCell.
  destruct (board !! row pos) as [cells|] eqn:Hcells; [|done].
  intros [= <-]. split.
  - intros r. destruct (decide (r = row pos)) as [->|Hne].
    + rewrite lookup_insert_eq. split; [done|by eauto].
    + by rewrite lookup_insert_ne.
  - intros r cells'. destruct (decide (r = row pos)) as [->|Hne].
    + rewrite lookup_insert_eq. intros [= <-] c.
      destruct (decide (c = col pos)) as [->|Hnec].
      * rewrite lookup_insert_eq. split; [done|by eauto].
      * rewrite lookup_insert_ne by done. by eapply Hcols.
    + rewrite lookup_insert_ne by done. apply Hcols.
Qed.

Lemma generated_board_rectangular boardSize alignment (ws : list string)
    t run t' boardSize' :
  toSize boardSize = Some boardSize' →
  generateWordsOnBoard boardSize (wordsArr ws) alignment t = Return (run, t') →
  rectangular boardSize' (finalBoard run).
Proof.
  intros Hbs Hgen.
  destruct (generateWordsOnBoard_returned _ _ _ _ _ _ Hgen)
    as (bs & al & Hbs' & _ & Hrun).
  assert (bs = boardSize') as -> by congruence.
  eapply (placeWords_preserves (rectangular boardSize') (fun _ => True));
    [|by apply Forall_true|apply createEmptyBoard_rectangular|exact Hrun].
  intros word b pos s b' _ Hb Hpos _ Hw. by eapply writeCell_rectangular.
Qed.

(** X9. In every direction mode and whatever the random draws, each cell of
    the rectangle of a board the call returns holds either the empty string
    or one letter of one of the input words, never [undefined]; and the
    board has no cell outside the rectangle. *)
Theorem generated_cells_are_empty_or_letters boardSize alignment
    (ws : list string) t run t' boardSize' r c :
  toSize boardSize = Some boardSize' →
  generateWordsOnBoard boardSize (wordsArr ws) alignment t = Return (run, t') →
  (0 ≤ r < height boardSize' ∧ 0 ≤ c < width boardSize' →
   ∃ cell, cellAt (finalBoard run) r c = Some cell ∧ emptyOrLetterOf ws cell)
  ∧ (¬ (0 ≤ r < height boardSize' ∧ 0 ≤ c < width boardSize') →
     cellAt (finalBoard run) r c = None).
Proof.
  intros Hbs Hgen.
  destruct (generateWordsOnBoard_returned _ _ _ _ _ _ Hgen)
    as (bs & al & Hbs' & _ & Hrun).
  assert (bs = boardSize') as -> by congruence.
  pose proof (placeWords_runSpec _ _ _ _ _ _ _
                (createEmptyBoard_wellShaped boardSize') Hrun)
    as (_ & _ & _ & Hshape).
  assert (∀ r c cell, cellAt (finalBoard run) r c = Some cell →
                      emptyOrLetterOf ws cell) as Hcells.
  { eapply (placeWords_preserves
              (fun b => ∀ r c cell, cellAt b r c = Some cell →
                                    emptyOrLetterOf ws cell)
              (fun word => word ∈ ws));
      [|by apply Forall_forall| |exact Hrun].
    - intros word b pos s b' Hword Hb _ Hs Hw r0 c0 cell.
      rewrite (cellAt_writeCell _ _ _ _ _ _ Hw).
      case_decide; [|apply Hb]. intros [= <-]. right. by exists word, s.
    - intros r0 c0 cell. rewrite cellAt_createEmptyBoard.
      case_decide; [|done]. intros [= <-]. by left. }
  split.
  - intros Hin. apply Hshape in Hin as [cell Hcell]. exists cell.
    split; [done|]. by eapply Hcells.
  - intros Hout. destruct (cellAt (finalBoard run) r c) eqn:Hcell; [|done].
    exfalso. apply Hout, Hshape. by eauto.
Qed.

Lemma generated_cells_are_empty_or_letters_witness :
  ∃ run t',
    generateWordsOnBoard (boardSizeObj 3 1) (wordsArr ["AB"])
      (alignmentObj ["horizontal"] "scatter")
      [ Sample 1 1; Sample 1 1; Sample 0 0 ] = Return (run, t')
    ∧ ∃ cell, cellAt (finalBoard run) 0 1 = Some cell
              ∧ emptyOrLetterOf ["AB"] cell.
Proof.
  destruct (generateWordsOnBoard (boardSizeObj 3 1) (wordsArr ["AB"])
              (alignmentObj ["horizontal"] "scatter")
              [ Sample 1 1; Sample 1 1; Sample 0 0 ])
    as [[run t']|e] eqn:Hgen; [|by vm_compute in Hgen].
  exists run, t'. split; [done|].
  apply (proj1 (generated_cells_are_empty_or_letters (boardSizeObj 3 1)
                  (alignmentObj ["horizontal"] "scatter") ["AB"] _ run t'
                  (mkSize 3 1) 0 1 eq_refl Hgen)).
  cbn. lia.
Defined.

(** ** Letters persist in the modes that draw nothing *)

Lemma keepsLetters_trans b1 b2 b3 :
  keepsLetters b1 b2 → keepsLetters b2 b3 → keepsLetters b1 b3.
Proof. intros H12 H23 r c s Hcell Hs. apply H23; [by apply H12|done]. Qed.

Lemma placeWords_letters_persist board words alignment boardSize t run t' :
  drawsNothing (direction alignment) →
  placeWords board words alignment boardSize t = Return (run, t') →
  (∀ i e, history run !! i = Some e →
          keepsLetters board (boardAfter e.2)
          ∧ keepsLetters (boardAfter e.2) (finalBoard run))
  ∧ ∀ i j e1 e2,
      history run !! i = Some e1 → history run !! j = Some e2 → (i ≤ j)%nat →
      keepsLetters (boardAfter e1.2) (boardAfter e2.2).
Proof.
  intros Hdir. revert board t run.
  induction words as [|word rest IH]; intros board t run Hrun.
  - injection Hrun as <- <-. by split.
  - cbn [placeWords] in Hrun. rewrite bind_eq in Hrun.
    destruct (placeWordOnBoard board word alignment boardSize t)
      as [[pl1 t1]|e] eqn:Hfirst; [|done].
    rewrite bind_eq in Hrun.
    destruct (placeWords (boardAfter pl1) rest alignment boardSize t1)
      as [[run' t2]|e] eqn:Hrest; [|done].
    injection Hrun as <- <-. cbn [finalBoard history].
    destruct (placeWordOnBoard_loop_drawsNothing _ _ _ _ _ _ _ _ Hdir Hfirst)
      as [Hkeep1 _].
    destruct (placeWords_drawsNothing _ _ _ _ _ _ _ Hdir Hrest) as [Hkeep _].
    destruct (IH _ _ _ Hrest) as [Hone Htwo].
    split.
    + intros [|i] e Hi.
      * injection Hi as <-. by split.
      * destruct (Hone i e Hi) as [H1 H2]. split; [|done].
        by eapply keepsLetters_trans.
    + intros [|i] [|j] e1 e2 Hi Hj Hle; try lia.
      * injection Hi as <-. injection Hj as <-. by intros r c s.
      * injection Hi as <-. by apply (Hone j e2 Hj).
      * eapply (Htwo i j); [done..|lia].
Qed.

(** X10. In the modes 'forward' and 'backward' a letter, once written, stays:
    a cell that holds a letter after some word of the run was processed
    holds the same letter after every later word and on the board
    returned. *)
Theorem letters_persist_in_forward_and_backward boardSize alignment d
    (ws : list string) t run t' i j e1 e2 :
  getProp alignment "direction" = JStr d → drawsNothing d →
  generateWordsOnBoard boardSize (wordsArr ws) alignment t = Return (run, t') →
  history run !! i = Some e1 → history run !! j = Some e2 → (i ≤ j)%nat →
  keepsLetters (boardAfter e1.2) (boardAfter e2.2)
  ∧ keepsLetters (boardAfter e2.2) (finalBoard run).
Proof.
  intros Hd Hnothing Hgen Hi Hj Hle.
  destruct (generateWordsOnBoard_returned _ _ _ _ _ _ Hgen)
    as (bs & al & _ & Hal & Hrun).
  rewrite <- (toAlignment_direction _ _ _ Hal Hd) in Hnothing.
  destruct (placeWords_letters_persist _ _ _ _ _ _ _ Hnothing Hrun)
    as [Hone Htwo].
  split; [by eapply Htwo|by eapply Hone].
Qed.

Lemma letters_persist_in_forward_and_backward_witness :
  ∃ run e1 e2,
    generateWordsOnBoard (boardSizeObj 2 1) (wordsArr ["AB"; "AB"])
      (alignmentObj ["horizontal"] "forward") [] = Return (run, [])
    ∧ history run !! 0%nat = Some e1 ∧ history run !! 1%nat = Some e2
    ∧ keepsLetters (boardAfter e1.2) (boardAfter e2.2).
Proof.
  destruct (generateWordsOnBoard (boardSizeObj 2 1) (wordsArr ["AB"; "AB"])
              (alignmentObj ["horizontal"] "forward") [])
    as [[run t']|e] eqn:Hgen; [|by vm_compute in Hgen].
  assert (∃ e1 e2, history run = [ e1; e2 ] ∧ t' = [])
    as (e1 & e2 & Hhist & ->).
  { vm_compute in Hgen. injection Hgen as <- <-. by eexists _, _. }
  exists run, e1, e2.
  assert (history run !! 0%nat = Some e1) as H0 by (by rewrite Hhist).
  assert (history run !! 1%nat = Some e2) as H1 by (by rewrite Hhist).
  split_and!; [done..|].
  apply (letters_persist_in_forward_and_backward (boardSizeObj 2 1)
           (alignmentObj ["horizontal"] "forward") "forward" ["AB"; "AB"]
           [] run [] 0%nat 1%nat e1 e2 eq_refl (or_introl eq_refl) Hgen
           H0 H1).
  lia.
Defined.

(** ** Edge cases of the word list *)

(** X11. The empty word is always reported as placed when the horizontal
    shape is enabled on a board with at least one row: its candidates have no
    cell, so nothing is checked or written and the board is unchanged. *)
Theorem empty_word_is_placed_without_writing board alignment boardSize :
  horizontal (lines alignment) = true →
  0 < height boardSize → 0 ≤ width boardSize →
  returns (placeWordOnBoard board "" alignment boardSize)
    (fun pl =>
       success (result pl) = true ∧ boardAfter pl = board
       ∧ ∃ p, committed pl = Some p ∧ positions p = []).
Proof.
  intros Hflag Hh Hw.
  unfold placeWordOnBoard, maxAttempts. cbn [placeWordOnBoard_loop]. cbv zeta.
  set (placements := generatePossiblePlacements "" alignment boardSize).
  assert (length placements ≠ 0%nat) as Hlen.
  { unfold placements, generatePossiblePlacements. cbv zeta. rewrite Hflag.
    rewrite length_app. unfold generateHorizontalPlacements.
    rewrite (length_bind_const _ _ (Z.to_nat (width boardSize + 1))).
    - rewrite length_range. nia.
    - intros r. rewrite (length_bind_const _ _ 1%nat); [|done].
      rewrite length_range. change (wlen "") with 0. lia. }
  apply Nat.eqb_neq in Hlen as Hlen'. rewrite Hlen'.
  eapply returns_bind; [apply returns_Math_random|]. intros s _.
  assert (floorTimes s (length placements) < length placements)%nat
    as Hlt by (apply floorTimes_lt; lia).
  apply lookup_lt_is_Some_2 in Hlt as [p Hp]. rewrite Hp.
  apply list_elem_of_lookup_2 in Hp.
  assert (positions p = []) as Hnil.
  { destruct (generatePossiblePlacements_wellFormed _ _ _ _ Hp)
      as [_ [[_ Hl]|(_ & _ & Hl)]]; [|by vm_compute in Hl].
    by destruct (positions p). }
  unfold canPlaceWord, placeWord. rewrite Hnil.
  cbn [canPlaceWord_from placeWord_from].
  eapply (returns_bind _ _ (fun ok => ok = true)); [by apply returns_ret|].
  intros ok ->.
  eapply (returns_bind _ _ (fun b => b = board)); [by apply returns_ret|].
  intros b ->. apply returns_ret. cbn. split_and!; [done..|]. by exists p.
Qed.

Lemma empty_word_is_placed_without_writing_witness :
  ∃ pl t',
    placeWordOnBoard (createEmptyBoard (mkSize 2 1)) ""
      (mkAlignment horizontalOnly "forward") (mkSize 2 1) [ Sample 1 1 ]
    = Return (pl, t')
    ∧ success (result pl) = true
    ∧ boardAfter pl = createEmptyBoard (mkSize 2 1).
Proof.
  destruct (empty_word_is_placed_without_writing
              (createEmptyBoard (mkSize 2 1))
              (mkAlignment horizontalOnly "forward") (mkSize 2 1)
              eq_refl eq_refl ltac:(by vm_compute) [ Sample 1 1 ])
    as (pl & t' & Hrun & Hok & Hboard & _).
  by exists pl, t'.
Defined.

(** ** More on validation *)

Lemma assoc_flags_absent (flags : list string) flag :
  flag ∉ flags →
  assoc flag ((fun f => (f, JBool true)) <$> flags) = JUndefined.
Proof.
  induction flags as [|f flags IH]; [done|].
  intros [Hne Hnot]%not_elem_of_cons. cbn [fmap list_fmap assoc].
  apply String.eqb_neq in Hne. rewrite Hne. by apply IH.
Qed.

(** X12. The length check belongs to block mode only: for an alignment
    without the block flag, every list of strings passes validation, whatever
    the lengths of the words, the other flags, the direction string and the
    numeric board size. *)
Theorem lengths_are_checked_in_block_mode_only w h flags d (ws : list string) :
  "block" ∉ flags →
  validateInputs (boardSizeObj w h) (wordsArr ws) (alignmentObj flags d)
  = Return tt.
Proof.
  intros Hflag. unfold validateInputs.
  change (getProp (getProp (alignmentObj flags d) "lines") "block")
    with (assoc "block" ((fun f => (f, JBool true)) <$> flags)).
  by rewrite assoc_flags_absent.
Qed.

Lemma lengths_are_checked_in_block_mode_only_witness :
  validateInputs (boardSizeObj 15 15) (wordsArr ["ROBOT"; "PANDA"])
    (alignmentObj ["horizontal"; "vertical"] "scatter") = Return tt.
Proof.
  apply lengths_are_checked_in_block_mode_only.
  rewrite list_elem_of_In. simpl. intuition discriminate.
Defined.

Lemma checkBlockLengths_throws ws e :
  checkBlockLengths ws = Throw e →
  e = TypeError ∨ ∃ word len, e = ErrBlockLength word len.
Proof.
  induction ws as [|w ws IH]; [done|]. cbn [checkBlockLengths].
  destruct (lengthOf w) as [len|e'] eqn:Hlen.
  - destruct (includes invalidLengths len); [|done].
    intros [= <-]. right. by eexists _, _.
  - intros [= <-]. left. destruct w; simpl in Hlen; congruence.
Qed.

(** X13. The argument checks run in the order boardSize, words, alignment:
    the words error is thrown exactly when the board size is acceptable and
    [words] is not an array, and the alignment error exactly when both are
    acceptable and [alignment] is falsy, has a falsy [lines], or has a
    [direction] that is not a string.  Of several invalid arguments the
    first in that order decides the error. *)
Theorem validation_errors_in_argument_order boardSize words alignment :
  let sizeOk :=
    truthy boardSize && typeof_number (getProp boardSize "width")
    && typeof_number (getProp boardSize "height") in
  let alignmentOk :=
    truthy alignment && truthy (getProp alignment "lines")
    && typeof_string (getProp alignment "direction") in
  (validateInputs boardSize words alignment = Throw ErrWordsArray
   ↔ sizeOk = true ∧ isArray words = false)
  ∧ (validateInputs boardSize words alignment = Throw ErrAlignment
     ↔ sizeOk = true ∧ isArray words = true ∧ alignmentOk = false).
Proof.
  cbv zeta. unfold validateInputs.
  replace (negb (truthy boardSize)
           || negb (typeof_number (getProp boardSize "width"))
           || negb (typeof_number (getProp boardSize "height")))
    with (negb (truthy boardSize
                && typeof_number (getProp boardSize "width")
                && typeof_number (getProp boardSize "height")))
    by (by destruct (truthy boardSize), (typeof_number _), (typeof_number _)).
  replace (negb (truthy alignment)
           || negb (truthy (getProp alignment "lines"))
           || negb (typeof_string (getProp alignment "direction")))
    with (negb (truthy alignment && truthy (getProp alignment "lines")
                && typeof_string (getProp alignment "direction")))
    by (by destruct (truthy alignment), (truthy _), (typeof_string _)).
  destruct (truthy boardSize && _ && _); cbn [negb];
    [|split; split; [done|by intros [? _]|done|by intros [? _]]].
  destruct (isArray words); cbn [negb];
    [|split; split; [done|done|done|by intros (_ & ? & _)]].
  destruct (truthy alignment && _ && _); cbn [negb];
    [|split; split; [done|by intros [_ ?]|done|done]].
  assert (∀ e, e = ErrWordsArray ∨ e = ErrAlignment →
               (if truthy (getProp (getProp alignment "lines") "block")
                then match words with
                     | JArr elems => checkBlockLengths elems
                     | _ => Return tt
                     end
                else Return tt) ≠ Throw e) as Hnot.
  { intros e He H. repeat case_match; try done.
    apply checkBlockLengths_throws in H as [->|(? & ? & ->)];
      by destruct He. }
  split; split.
  - intros H. exfalso. eapply Hnot; [|exact H]. by left.
  - by intros [_ ?].
  - intros H. exfalso. eapply Hnot; [|exact H]. by right.
  - by intros (_ & _ & ?).
Qed.

(** X14. Every block candidate fills its rectangle: its cells are all the
    cells of a rectangle of the dimensions recorded with it, in reading
    order; the rectangle lies on the board and its area is the length of the
    word, so the cut-off at [wordLength] cells never drops a cell. *)
Theorem block_candidates_fill_their_rectangle word boardSize p :
  p ∈ generateBlockPlacements word boardSize →
  ∃ blk startRow startCol,
    type p = "block" ∧ blockDimensions p = Some blk
    ∧ width blk * height blk = wlen word
    ∧ 0 ≤ startRow ∧ startRow + height blk ≤ height boardSize
    ∧ 0 ≤ startCol ∧ startCol + width blk ≤ width boardSize
    ∧ positions p = rowMajor startRow startCol (width blk) (height blk).
Proof.
  unfold generateBlockPlacements. cbv zeta. intros H. enum_cases H.
  apply getValidBlockDimensions_area in Hx as (Hw & Hh & Harea).
  exists x, x0, x1. split_and!; [done|done|done|lia..|].
  cbn [positions]. rewrite generateBlockPositions_prefix.
  apply take_ge. rewrite length_rowMajor. nia.
Qed.

Lemma block_candidates_fill_their_rectangle_witness :
  mkPlacement "block" [ Pos 0 1; Pos 0 2; Pos 1 1; Pos 1 2 ]
    (Some (mkSize 2 2))
  ∈ generateBlockPlacements "WORD" (mkSize 3 2)
  ∧ ∃ blk startRow startCol,
      width blk * height blk = wlen "WORD"
      ∧ [ Pos 0 1; Pos 0 2; Pos 1 1; Pos 1 2 ]
        = rowMajor startRow startCol (width blk) (height blk).
Proof.
  assert (mkPlacement "block" [ Pos 0 1; Pos 0 2; Pos 1 1; Pos 1 2 ]
            (Some (mkSize 2 2))
          ∈ generateBlockPlacements "WORD" (mkSize 3 2)) as Hin
    by (apply list_elem_of_In; vm_compute; tauto).
  split; [exact Hin|].
  destruct (block_candidates_fill_their_rectangle "WORD" (mkSize 3 2) _ Hin)
    as (blk & r & c & _ & _ & Harea & _ & _ & _ & _ & Hpos).
  by exists blk, r, c.
Defined.

Lemma validation_errors_in_argument_order_witness :
  validateInputs (boardSizeObj 3 3) (JStr "CAT") JNull = Throw ErrWordsArray.
Proof.
  apply (proj1 (validation_errors_in_argument_order (boardSizeObj 3 3)
                  (JStr "CAT") JNull)).
  by split.
Defined.

(** ** Candidates as paths *)

Lemma lookup_fmap_range {A} (f : Z → A) lo hi (k : nat) x :
  (f <$> range lo hi) !! k = Some x
  ↔ x = f (lo + Z.of_nat k) ∧ lo + Z.of_nat k < hi.
Proof.
  rewrite list_lookup_fmap, fmap_Some. unfold range. split.
  - intros (i & Hi%lookup_seqZ & ->). destruct Hi as [-> ?]. split; [done|lia].
  - intros [-> ?]. eexists. split; [|done]. apply lookup_seqZ. lia.
Qed.

Ltac path_step :=
  match goal with
  | Ha : _ !! _ = Some ?a, Hb : _ !! S _ = Some ?b |- adjacent ?a ?b =>
      apply lookup_fmap_range in Ha as [-> ?];
      apply lookup_fmap_range in Hb as [-> ?];
      unfold adjacent; cbn [row col];
      split_and!; [lia|lia|intros [= ?]; lia]
  end.

(** X15. Apart from blocks, every candidate is a path: each of its cells
    touches the next one, by a side or by a corner, so a placed word can be
    read by moving from cell to neighbouring cell. *)
Theorem line_and_bend_candidates_are_paths
    word alignment boardSize p (k : nat) a b :
  block (lines alignment) = false →
  p ∈ generatePossiblePlacements word alignment boardSize →
  positions p !! k = Some a → positions p !! S k = Some b →
  adjacent a b.
Proof.
  intros Hblock Hp Ha Hb.
  unfold generatePossiblePlacements in Hp. cbv zeta in Hp.
  rewrite Hblock, app_nil_r in Hp.
  repeat (apply elem_of_app in Hp as [Hp|Hp]);
    (case_match; [|by apply elem_of_nil in Hp]).
  - unfold generateHorizontalPlacements in Hp. enum_cases Hp.
    cbn [positions] in *. path_step.
  - unfold generateVerticalPlacements in Hp. enum_cases Hp.
    cbn [positions] in *. path_step.
  - unfold generateDiagonalPlacements in Hp. enum_cases Hp;
      cbn [positions] in *; path_step.
  - unfold generateBendStraightPlacements in Hp. enum_cases Hp;
      cbn [positions] in *; unfold bendHVPositions, bendVHPositions in *;
      apply lookup_app_Some in Ha as [Ha|[Hla Ha]];
      apply lookup_app_Some in Hb as [Hb|[Hlb Hb]];
      rewrite ?length_fmap, ?length_range in *;
      apply lookup_fmap_range in Ha as [-> ?];
      apply lookup_fmap_range in Hb as [-> ?];
      unfold adjacent; cbn [row col];
      (split_and!; [lia|lia|intros Heq; injection Heq; intros; lia]).
  - unfold generateBendDiagonalPlacements in Hp. enum_cases Hp.
    cbn in Hb. done.
Qed.

Lemma line_and_bend_candidates_are_paths_witness :
  mkPlacement "bend-straight-hv" [ Pos 0 0; Pos 0 1; Pos 1 1 ] None
  ∈ generatePossiblePlacements "CAT"
      (mkAlignment (mkLines true true true true true false) "forward")
      (mkSize 3 3)
  ∧ adjacent (Pos 0 1) (Pos 1 1).
Proof.
  assert (mkPlacement "bend-straight-hv" [ Pos 0 0; Pos 0 1; Pos 1 1 ] None
          ∈ generatePossiblePlacements "CAT"
              (mkAlignment (mkLines true true true true true false) "forward")
              (mkSize 3 3)) as Hin
    by (apply list_elem_of_In; vm_compute; tauto).
  split; [exact Hin|].
  exact (line_and_bend_candidates_are_paths "CAT"
           (mkAlignment (mkLines true true true true true false) "forward")
           (mkSize 3 3)
           (mkPlacement "bend-straight-hv" [ Pos 0 0; Pos 0 1; Pos 1 1 ] None)
           1%nat (Pos 0 1) (Pos 1 1) eq_refl Hin eq_refl eq_refl).
Defined.

(** * Properties of the display *)

(** ** Arrays *)

Lemma foldr_max_spec {V} (l : list (Z * V)) :
  let n := foldr (fun kv n => Z.max n (kv.1 + 1)) 0 l in
  0 ≤ n ∧ (∀ kv, kv ∈ l → kv.1 + 1 ≤ n) ∧ (n = 0 ∨ ∃ kv, kv ∈ l ∧ n = kv.1 + 1).
Proof.
  induction l as [|kv l IH]; cbn [foldr].
  - split_and!; [done| |by left]. intros kv Hkv. by apply elem_of_nil in Hkv.
  - cbv zeta in *. destruct IH as (H0 & Hle & Hmax). split_and!; [lia| |].
    + intros kv' [->|Hin]%elem_of_cons; [lia|]. specialize (Hle kv' Hin). lia.
    + destruct (Z.max_spec (foldr (fun kv n => Z.max n (kv.1 + 1)) 0 l)
                  (kv.1 + 1)) as [[_ ->]|[_ ->]].
      * right. exists kv. split; [by left|done].
      * destruct Hmax as [->|(kv' & Hin & ->)]; [by left|].
        right. exists kv'. split; [by right|done].
Qed.

Lemma arrayLength_indices {V} (a : gmap Z V) (n : Z) :
  (∀ i, is_Some (a !! i) ↔ 0 ≤ i < n) → arrayLength a = Z.max 0 n.
Proof.
  intros Hkeys. unfold arrayLength.
  destruct (foldr_max_spec (map_to_list a)) as (H0 & Hle & Hmax).
  cbv zeta in *.
  assert (∀ kv, kv ∈ map_to_list a → 0 ≤ kv.1 < n) as Hin.
  { intros [i v] Hiv%elem_of_map_to_list. apply Hkeys. by eauto. }
  destruct (decide (0 < n)) as [Hn|Hn].
  - destruct (proj2 (Hkeys (n - 1)) ltac:(lia)) as [v Hv].
    apply elem_of_map_to_list in Hv. specialize (Hle _ Hv). cbn [fst] in Hle.
    destruct Hmax as [Hz|(kv & Hkv & Heq)]; [lia|].
    specialize (Hin _ Hkv). lia.
  - destruct Hmax as [Hz|(kv & Hkv & Heq)]; [lia|].
    specialize (Hin _ Hkv). lia.
Qed.

Lemma range_max lo n : range lo (Z.max lo n) = range lo n.
Proof.
  unfold range. destruct (decide (lo ≤ n)); [by rewrite Z.max_r|].
  rewrite Z.max_l by lia. rewrite Z.sub_diag.
  symmetry. apply seqZ_nil. lia.
Qed.

Lemma arrayElements_indices {V} (a : gmap Z V) (n : Z) :
  (∀ i, is_Some (a !! i) ↔ 0 ≤ i < n) →
  arrayElements a = (fun i => a !! i) <$> range 0 n.
Proof.
  intros Hkeys. unfold arrayElements.
  by rewrite (arrayLength_indices a n Hkeys), range_max.
Qed.

Lemma bind_singletons {A B} (g : A → B) (l : list A) :
  (l ≫= fun x => [ g x ]) = g <$> l.
Proof. induction l as [|x l IH]; [done|]. by rewrite bind_cons, IH. Qed.

Lemma rectangular_rows boardSize board :
  rectangular boardSize board →
  arrayLength board = Z.max 0 (height boardSize)
  ∧ arrayElements board
    = (fun r => board !! r) <$> range 0 (height boardSize).
Proof.
  intros [Hrows _]. split.
  - by apply arrayLength_indices.
  - by apply arrayElements_indices.
Qed.

Lemma rectangular_cells boardSize board r cells :
  rectangular boardSize board → board !! r = Some cells →
  arrayLength cells = Z.max 0 (width boardSize)
  ∧ arrayElements cells
    = (fun c => cellAt board r c) <$> range 0 (width boardSize).
Proof.
  intros [_ Hcols] Hcells. specialize (Hcols r cells Hcells). split.
  - by apply arrayLength_indices.
  - rewrite (arrayElements_indices cells _ Hcols).
    apply list_fmap_ext. intros _ c _. unfold cellAt. by rewrite Hcells.
Qed.

(** ** The compact display *)

Lemma compactLine_rectangular boardSize board emptyChar r cells :
  rectangular boardSize board → board !! r = Some cells →
  compactLine emptyChar cells
  = join " " (shownAt board emptyChar r <$> range 0 (width boardSize)).
Proof.
  intros Hrect Hcells. unfold compactLine, mapElements.
  rewrite (proj2 (rectangular_cells _ _ _ _ Hrect Hcells)).
  by rewrite <- !list_fmap_compose.
Qed.

Lemma displayBoardCompact_rectangular boardSize board emptyChar :
  rectangular boardSize board →
  displayBoardCompact board emptyChar
  = [ compactHeader ]
    ++ ((fun r =>
           join " " (shownAt board (default middleDot emptyChar) r
                       <$> range 0 (width boardSize)))
          <$> range 0 (height boardSize))
    ++ [ compactFooter ].
Proof.
  intros Hrect. unfold displayBoardCompact. cbv zeta. do 2 f_equal.
  rewrite (proj2 (rectangular_rows _ _ Hrect)), list_fmap_bind.
  rewrite <- bind_singletons. apply bind_ext_elem.
  intros r Hr%elem_of_range. cbn [compose].
  destruct (proj2 (proj1 Hrect r) Hr) as [cells Hcells]. rewrite Hcells.
  by rewrite (compactLine_rectangular _ _ _ _ _ Hrect Hcells).
Qed.

Lemma length_append (s1 s2 : string) :
  String.length (String.append s1 s2)
  = (String.length s1 + String.length s2)%nat.
Proof. induction s1 as [|c s1 IH]; [done|]. simpl. by rewrite IH. Qed.

Lemma length_join sep parts (a n : nat) :
  Forall (fun part => String.length part = a) parts →
  length parts = S n →
  String.length (join sep parts) = (S n * a + n * String.length sep)%nat.
Proof.
  intros Hparts. revert n.
  induction Hparts as [|part parts Hpart Hrest IH]; intros n Hlen; [done|].
  destruct parts as [|part' parts].
  - injection Hlen as <-. cbn [join]. lia.
  - destruct n as [|n]; [done|].
    change (join sep (part :: part' :: parts))
      with (String.append part
              (String.append sep (join sep (part' :: parts)))).
    rewrite !length_append, (IH n) by (simpl in Hlen |- *; lia).
    rewrite Hpart. lia.
Qed.

Lemma length_bind_const_elem {A B} (f : A → list B) (l : list A) (n : nat) :
  (∀ x, x ∈ l → length (f x) = n) → length (l ≫= f) = (length l * n)%nat.
Proof.
  intros H. induction l as [|a l IH]; [done|].
  rewrite bind_cons, length_app, H, IH by (by left || (intros; apply H; by right)).
  simpl. lia.
Qed.

Lemma generated_board_printable boardSize alignment (ws : list string)
    t run t' boardSize' :
  toSize boardSize = Some boardSize' →
  generateWordsOnBoard boardSize (wordsArr ws) alignment t = Return (run, t') →
  printable boardSize' (finalBoard run).
Proof.
  intros Hbs Hgen.
  destruct (generateWordsOnBoard_returned _ _ _ _ _ _ Hgen)
    as (bs & al & Hbs' & _ & Hrun).
  assert (bs = boardSize') as -> by congruence.
  eapply (placeWords_preserves (printable boardSize') (fun _ => True));
    [|by apply Forall_true| |exact Hrun].
  - intros word b pos s b' _ Hb _ Hs Hw r c Hr Hc.
    rewrite (cellAt_writeCell _ _ _ _ _ _ Hw).
    case_decide; [|by apply Hb]. exists s. split; [done|].
    unfold letters in Hs. apply list_elem_of_fmap in Hs as (ch & -> & _).
    simpl. lia.
  - intros r c Hr Hc. rewrite cellAt_createEmptyBoard.
    rewrite decide_True by done. exists "". split; [done|simpl; lia].
Qed.

Lemma length_shownAt boardSize board emptyChar r c :
  printable boardSize board → String.length emptyChar = 1%nat →
  0 ≤ r < height boardSize → 0 ≤ c < width boardSize →
  String.length (shownAt board emptyChar r c) = 1%nat
  ∧ String.length (cellTextAt board emptyChar true r c) = 3%nat.
Proof.
  intros Hprint Hec Hr Hc. destruct (Hprint r c Hr Hc) as (s & Hs & Hlen).
  unfold shownAt, cellTextAt, cellText. rewrite Hs. cbn [fmap option_fmap
    option_map joinedElement shownCell strictNe].
  destruct s as [|ch [|ch' s]]; cbn in Hlen |- *; [|done|lia].
  split; [done|]. rewrite !length_append, Hec. reflexivity.
Qed.

Lemma compactDisplay_lengths boardSize alignment (ws : list string)
    t run t' boardSize' ec :
  toSize boardSize = Some boardSize' →
  generateWordsOnBoard boardSize (wordsArr ws) alignment t = Return (run, t') →
  displayBoardCompact (finalBoard run) ec
  = [ compactHeader ]
    ++ ((fun r =>
           join " " (shownAt (finalBoard run) (default middleDot ec) r
                       <$> range 0 (width boardSize')))
          <$> range 0 (height boardSize'))
    ++ [ compactFooter ]
  ∧ (String.length (default middleDot ec) = 1%nat → 0 < width boardSize' →
     ∀ r, 0 ≤ r < height boardSize' →
          String.length
            (join " " (shownAt (finalBoard run) (default middleDot ec) r
                         <$> range 0 (width boardSize')))
          = Z.to_nat (2 * width boardSize' - 1)).
Proof.
  intros Hbs Hgen.
  pose proof (generated_board_rectangular _ _ _ _ _ _ _ Hbs Hgen) as Hrect.
  pose proof (generated_board_printable _ _ _ _ _ _ _ Hbs Hgen) as Hprint.
  split; [by apply displayBoardCompact_rectangular|].
  intros Hec Hw r Hr.
  rewrite (length_join _ _ 1 (Z.to_nat (width boardSize' - 1))).
  - cbn. lia.
  - apply Forall_forall. intros s (c & -> & Hc%elem_of_range)%list_elem_of_fmap.
    by eapply length_shownAt.
  - rewrite length_fmap, length_range. lia.
Qed.

(** X16. The compact display of a generated board prints the header, then
    one line per row of the board, top to bottom, then the footer.  The line
    of a row is made of the symbols of its cells, left to right, separated by
    single spaces, an empty cell being shown as the empty character.  With a
    one-character empty character every such line has [2 * width - 1]
    characters. *)
Theorem compact_display_of_generated_board boardSize alignment
    (ws : list string) t run t' boardSize' ec :
  toSize boardSize = Some boardSize' →
  generateWordsOnBoard boardSize (wordsArr ws) alignment t = Return (run, t') →
  displayBoardCompact (finalBoard run) ec
  = [ compactHeader ]
    ++ ((fun r =>
           join " " (shownAt (finalBoard run) (default middleDot ec) r
                       <$> range 0 (width boardSize')))
          <$> range 0 (height boardSize'))
    ++ [ compactFooter ]
  ∧ (String.length (default middleDot ec) = 1%nat → 0 < width boardSize' →
     ∀ r, 0 ≤ r < height boardSize' →
          String.length
            (join " " (shownAt (finalBoard run) (default middleDot ec) r
                         <$> range 0 (width boardSize')))
          = Z.to_nat (2 * width boardSize' - 1)).
Proof. apply compactDisplay_lengths. Qed.

Lemma compact_display_of_generated_board_witness :
  ∃ run,
    generateWordsOnBoard (boardSizeObj 5 1) (wordsArr ["CAT"])
      (alignmentObj ["horizontal"] "forward") [ Sample 1 1 ] = Return (run, [])
    ∧ displayBoardCompact (finalBoard run) (Some ".")
      = [ compactHeader; ". C A T ."; compactFooter ].
Proof.
  destruct (generateWordsOnBoard (boardSizeObj 5 1) (wordsArr ["CAT"])
              (alignmentObj ["horizontal"] "forward") [ Sample 1 1 ])
    as [[run t']|e] eqn:Hgen; [|by vm_compute in Hgen].
  assert (t' = []) as ->
    by (vm_compute in Hgen; by injection Hgen as _ <-).
  exists run. split; [done|].
  rewrite (proj1 (compact_display_of_generated_board (boardSizeObj 5 1)
                    (alignmentObj ["horizontal"] "forward") ["CAT"] _ run []
                    (mkSize 5 1) (Some ".") eq_refl Hgen)).
  vm_compute in Hgen. injection Hgen as <-. reflexivity.
Defined.

(** ** The grid display *)

Lemma gridLine_length boardSize board emptyChar r cells :
  rectangular boardSize board → printable boardSize board →
  String.length emptyChar = 1%nat → 0 < width boardSize →
  0 ≤ r < height boardSize → board !! r = Some cells →
  String.length (gridLine emptyChar true false r cells)
  = Z.to_nat (4 * width boardSize + 1).
Proof.
  intros Hrect Hprint Hec Hw Hr Hcells.
  unfold gridLine, rowPrefix, mapElements. cbv zeta.
  rewrite (proj2 (rectangular_cells _ _ _ _ Hrect Hcells)).
  rewrite <- !list_fmap_compose, !length_append.
  rewrite (length_join _ _ 3 (Z.to_nat (width boardSize - 1))).
  - cbn. lia.
  - apply Forall_forall.
    intros s (c & -> & Hc%elem_of_range)%list_elem_of_fmap.
    by eapply (length_shownAt boardSize board emptyChar r c).
  - rewrite length_fmap, length_range. lia.
Qed.

Lemma separator_length boardSize board r cells :
  rectangular boardSize board → 0 < width boardSize →
  board !! r = Some cells →
  String.length (separator false r cells) = Z.to_nat (4 * width boardSize + 1).
Proof.
  intros Hrect Hw Hcells. unfold separator, rowPrefix.
  rewrite (proj1 (rectangular_cells _ _ _ _ Hrect Hcells)).
  rewrite !length_append.
  rewrite (length_join _ _ 3 (Z.to_nat (width boardSize - 1))).
  - cbn. lia.
  - by apply Forall_replicate.
  - rewrite length_replicate. lia.
Qed.

Lemma range_snoc n : 0 < n → range 0 n = range 0 (n - 1) ++ [ n - 1 ].
Proof.
  intros Hn. unfold range.
  replace (n - 0) with ((n - 1 - 0) + 1) by lia.
  rewrite seqZ_app by lia. f_equal.
  rewrite seqZ_cons by lia. rewrite seqZ_nil by lia. f_equal. lia.
Qed.

(** X17. The grid display of a generated board is aligned.  For a board
    with at least one row and one column, shown with the grid, without
    coordinates and with a one-character empty character, [displayBoard]
    throws nothing and prints, between header and footer, [2 * height - 1]
    strings (the rows and the separators between them), each of exactly
    [4 * width + 1] characters. *)
Theorem grid_display_is_aligned boardSize alignment (ws : list string)
    t run t' boardSize' options :
  toSize boardSize = Some boardSize' →
  generateWordsOnBoard boardSize (wordsArr ws) alignment t = Return (run, t') →
  0 < width boardSize' → 0 < height boardSize' →
  showGrid options ≠ Some false → showCoordinates options ≠ Some true →
  String.length (default middleDot (emptyChar options)) = 1%nat →
  ∃ body,
    displayBoard (finalBoard run) options
    = mkDisplay ([ gridHeader ] ++ body ++ [ gridFooter ]) None
    ∧ length body = Z.to_nat (2 * height boardSize' - 1)
    ∧ Forall (fun line =>
                String.length line = Z.to_nat (4 * width boardSize' + 1))
        body.
Proof.
  intros Hbs Hgen Hw Hh Hgrid Hcoord Hec.
  pose proof (generated_board_rectangular _ _ _ _ _ _ _ Hbs Hgen) as Hrect.
  pose proof (generated_board_printable _ _ _ _ _ _ _ Hbs Hgen) as Hprint.
  unfold displayBoard. cbv zeta.
  assert (default true (showGrid options) = true) as ->
    by (by destruct (showGrid options) as [[|]|]).
  assert (default false (showCoordinates options) = false) as ->
    by (by destruct (showCoordinates options) as [[|]|]).
  rewrite (proj1 (rectangular_rows _ _ Hrect)), Z.max_r by lia.
  eexists. split; [reflexivity|]. split.
  - rewrite (range_snoc (height boardSize')) by done.
    rewrite bind_app, length_app, bind_singleton.
    rewrite (length_bind_const_elem _ _ 2).
    + rewrite length_range.
      destruct (proj2 (proj1 Hrect (height boardSize' - 1)) ltac:(lia))
        as [cells ->].
      unfold rowOutput.
      rewrite (proj1 (rectangular_rows _ _ Hrect)), Z.max_r by lia.
      replace (height boardSize' - 1 <? height boardSize' - 1) with false
        by (symmetry; apply Z.ltb_ge; lia).
      cbn. lia.
    + intros r Hr%elem_of_range.
      destruct (proj2 (proj1 Hrect r) ltac:(lia)) as [cells ->].
      unfold rowOutput.
      rewrite (proj1 (rectangular_rows _ _ Hrect)), Z.max_r by lia.
      replace (r <? height boardSize' - 1) with true
        by (symmetry; apply Z.ltb_lt; lia).
      reflexivity.
  - apply Forall_forall. intros line Hline.
    apply list_elem_of_bind in Hline as (r & Hline & Hr%elem_of_range).
    destruct (proj2 (proj1 Hrect r) Hr) as [cells Hcells].
    rewrite Hcells in Hline. unfold rowOutput in Hline.
    apply elem_of_app in Hline as [Hline|Hline].
    + apply list_elem_of_singleton in Hline as ->.
      by eapply gridLine_length.
    + destruct (true && _); [|by apply elem_of_nil in Hline].
      apply list_elem_of_singleton in Hline as ->.
      by eapply separator_length.
Qed.

Lemma grid_display_is_aligned_witness :
  ∃ run body,
    generateWordsOnBoard (boardSizeObj 3 2) (wordsArr ["AB"])
      (alignmentObj ["horizontal"] "forward") [ Sample 1 1 ] = Return (run, [])
    ∧ displayBoard (finalBoard run) (mkOptions (Some ".") None None)
      = mkDisplay ([ gridHeader ] ++ body ++ [ gridFooter ]) None
    ∧ length body = 3%nat.
Proof.
  destruct (generateWordsOnBoard (boardSizeObj 3 2) (wordsArr ["AB"])
              (alignmentObj ["horizontal"] "forward") [ Sample 1 1 ])
    as [[run t']|e] eqn:Hgen; [|by vm_compute in Hgen].
  assert (t' = []) as ->
    by (vm_compute in Hgen; by injection Hgen as _ <-).
  destruct (grid_display_is_aligned (boardSizeObj 3 2)
              (alignmentObj ["horizontal"] "forward") ["AB"] _ run []
              (mkSize 3 2) (mkOptions (Some ".") None None) eq_refl Hgen
              eq_refl eq_refl ltac:(done) ltac:(done) eq_refl)
    as (body & Hdisplay & Hlen & _).
  by exists run, body.
Defined.

(** X18. [displayBoard] reads [board[0].length] when coordinates are asked
    for, so on a board without rows (what a call with a height of zero or
    less returns) it throws a TypeError after printing the header; without
    coordinates it prints the header and the footer of such a board.  A
    board with at least one row is displayed without an exception. *)
Theorem coordinates_need_a_first_row boardSize alignment (ws : list string)
    t run t' boardSize' options :
  toSize boardSize = Some boardSize' →
  generateWordsOnBoard boardSize (wordsArr ws) alignment t = Return (run, t') →
  (height boardSize' ≤ 0 → showCoordinates options = Some true →
   displayBoard (finalBoard run) options
   = mkDisplay [ gridHeader ] (Some TypeError))
  ∧ (height boardSize' ≤ 0 → showCoordinates options ≠ Some true →
     displayBoard (finalBoard run) options
     = mkDisplay [ gridHeader; gridFooter ] None)
  ∧ (0 < height boardSize' →
     thrown (displayBoard (finalBoard run) options) = None).
Proof.
  intros Hbs Hgen.
  pose proof (generated_board_rectangular _ _ _ _ _ _ _ Hbs Hgen) as Hrect.
  unfold displayBoard. cbv zeta. split_and!.
  - intros Hh ->. cbn [default].
    destruct (finalBoard run !! 0) as [cells|] eqn:Hrow; [|done].
    exfalso. assert (0 ≤ 0 < height boardSize'); [|lia].
    apply (proj1 Hrect). by eauto.
  - intros Hh Hcoord.
    assert (default false (showCoordinates options) = false) as ->
      by (by destruct (showCoordinates options) as [[|]|]).
    rewrite (proj1 (rectangular_rows _ _ Hrect)), Z.max_l by lia.
    reflexivity.
  - intros Hh. destruct (default false (showCoordinates options)); [|done].
    destruct (proj2 (proj1 Hrect 0) ltac:(lia)) as [cells ->]. done.
Qed.

Lemma coordinates_need_a_first_row_witness :
  ∃ run,
    generateWordsOnBoard (boardSizeObj 3 0) (wordsArr ["AB"])
      (alignmentObj ["horizontal"] "forward") [] = Return (run, [])
    ∧ displayBoard (finalBoard run) (mkOptions None None (Some true))
      = mkDisplay [ gridHeader ] (Some TypeError).
Proof.
  destruct (generateWordsOnBoard (boardSizeObj 3 0) (wordsArr ["AB"])
              (alignmentObj ["horizontal"] "forward") [])
    as [[run t']|e] eqn:Hgen; [|by vm_compute in Hgen].
  assert (t' = []) as ->
    by (vm_compute in Hgen; by injection Hgen as _ <-).
  exists run. split; [done|].
  apply (proj1 (coordinates_need_a_first_row (boardSizeObj 3 0)
                  (alignmentObj ["horizontal"] "forward") ["AB"] _ run []
                  (mkSize 3 0) (mkOptions None None (Some true))
                  eq_refl Hgen)); [by vm_compute|done].
Defined.

(** ** The script *)

Lemma returns_generateWordsOnBoard boardSize alignment (ws : list string)
    boardSize' :
  validateInputs boardSize (wordsArr ws) alignment = Return tt →
  toSize boardSize = Some boardSize' →
  returns (generateWordsOnBoard boardSize (wordsArr ws) alignment)
    (fun run =>
       ∃ alignment',
         runSpec (createEmptyBoard boardSize') ws alignment' boardSize' run).
Proof.
  intros Hvalid Hbs.
  destruct (validateInputs_views _ _ _ Hvalid) as [_ [al Hal]].
  unfold generateWordsOnBoard. rewrite Hvalid.
  eapply (returns_bind _ _ (fun _ => True)); [by apply returns_lift|].
  intros _ _. unfold wordsArr. rewrite Hbs, Hal, toWords_strings.
  eapply returns_mono;
    [apply returns_placeWords, createEmptyBoard_wellShaped|].
  intros run Hrun. by exists al.
Qed.

(** X19. The script [run.js] never throws, whatever the random draws: its
    call passes validation and returns a 15 × 15 board, and the compact view
    it prints consists of the header, 15 lines of 29 characters each, and
    the footer.  It warns at most once per word, and only about words of its
    list. *)
Theorem script_prints_a_15_by_15_board t :
  ∃ warned rows t',
    run_js t
    = Return ((warned, [ compactHeader ] ++ rows ++ [ compactFooter ]), t')
    ∧ length rows = 15%nat
    ∧ Forall (fun line => String.length line = 29%nat) rows
    ∧ (length warned ≤ 20)%nat
    ∧ Forall (fun line => ∃ word, word ∈ scriptWords
                                  ∧ line = warningFor word) warned.
Proof.
  unfold run_js. rewrite bind_eq.
  destruct (returns_generateWordsOnBoard (boardSizeObj 15 15) scriptAlignment
              scriptWords (mkSize 15 15) eq_refl eq_refl t)
    as (run & t' & Hgen & al & Hhist & Hwarn & _ & _).
  rewrite Hgen.
  destruct (compactDisplay_lengths (boardSizeObj 15 15) scriptAlignment
              scriptWords t run t' (mkSize 15 15) None eq_refl Hgen)
    as [Hdisplay Hlen].
  eexists _, _, _. split; [by rewrite Hdisplay|].
  rewrite length_fmap, length_range. split_and!; [done| | |].
  - apply Forall_forall. intros line (r & -> & Hr%elem_of_range)%list_elem_of_fmap.
    by rewrite Hlen.
  - rewrite Hwarn. unfold warningsOf.
    transitivity (length (history run)).
    + clear. induction (history run) as [|e h IH]; [done|].
      rewrite bind_cons, length_app. destruct (success _); simpl; lia.
    + by rewrite <- (length_fmap fst), Hhist.
  - rewrite Hwarn. unfold warningsOf. apply Forall_forall. intros line Hline.
    apply list_elem_of_bind in Hline as ([word pl] & Hline & Hentry).
    cbn [fst snd] in Hline.
    destruct (success (result pl)); [by apply elem_of_nil in Hline|].
    apply list_elem_of_singleton in Hline as ->. exists word.
    split; [|done]. rewrite <- Hhist.
    apply list_elem_of_fmap. by exists (word, pl).
Qed.

(** * Further properties of the shapes and the letters *)

(** X20. The bound check of the bent shape keeps its first leg off the far
    edge: no right-then-down candidate has a cell in the last column of the
    board, and no down-then-right candidate has a cell in the last row. *)
Theorem bend_candidates_avoid_the_far_edge word boardSize p pos :
  p ∈ generateBendStraightPlacements word boardSize → pos ∈ positions p →
  (type p = "bend-straight-hv" → col pos < width boardSize - 1)
  ∧ (type p = "bend-straight-vh" → row pos < height boardSize - 1).
Proof.
  intros Hp Hpos. split; intros Htype.
  - by eapply bendStraight_hv_avoids_last_column.
  - by eapply bendStraight_vh_avoids_last_row.
Qed.

Lemma bend_candidates_avoid_the_far_edge_witness :
  mkPlacement "bend-straight-hv" [ Pos 0 0; Pos 0 1; Pos 1 1 ] None
  ∈ generateBendStraightPlacements "CAT" (mkSize 3 3)
  ∧ Pos 0 1 ∈ [ Pos 0 0; Pos 0 1; Pos 1 1 ]
  ∧ col (Pos 0 1) < width (mkSize 3 3) - 1.
Proof.
  assert (mkPlacement "bend-straight-hv" [ Pos 0 0; Pos 0 1; Pos 1 1 ] None
          ∈ generateBendStraightPlacements "CAT" (mkSize 3 3)) as Hin
    by (apply list_elem_of_In; vm_compute; tauto).
  assert (Pos 0 1 ∈ [ Pos 0 0; Pos 0 1; Pos 1 1 ]) as Hpos
    by (apply list_elem_of_In; simpl; tauto).
  split_and!; [exact Hin|exact Hpos|].
  exact (proj1 (bend_candidates_avoid_the_far_edge "CAT" (mkSize 3 3)
                  (mkPlacement "bend-straight-hv"
                     [ Pos 0 0; Pos 0 1; Pos 1 1 ] None)
                  (Pos 0 1) Hin Hpos) eq_refl).
Defined.

(** X21. For an index inside the word, [getLetterForPosition] returns in
    every direction mode, and for every random draw, a one-character string
    that is a letter of the word: never [undefined], never a longer
    string. *)
Theorem letter_mapper_returns_a_letter_of_the_word
    word i direction t letter t' :
  0 ≤ i < wlen word →
  getLetterForPosition word i direction t = Return (letter, t') →
  ∃ s, letter = Some s ∧ s ∈ letters word ∧ String.length s = 1%nat.
Proof.
  intros Hi Hletter.
  destruct (getLetterForPosition_letter _ _ _ _ _ _ Hi Hletter)
    as (s & -> & Hs).
  exists s. split_and!; [done..|].
  unfold letters in Hs. by apply list_elem_of_fmap in Hs as (ch & -> & _).
Qed.

Lemma letter_mapper_returns_a_letter_of_the_word_witness :
  0 ≤ 1 < wlen "CAT"
  ∧ ∃ s, getLetterForPosition "CAT" 1 "scatter" [ Sample 2 0; Sample 1 2 ]
         = Return (Some s, [])
         ∧ s ∈ letters "CAT".
Proof.
  split; [by vm_compute|].
  destruct (getLetterForPosition "CAT" 1 "scatter" [ Sample 2 0; Sample 1 2 ])
    as [[letter t']|e] eqn:Hletter; [|by vm_compute in Hletter].
  destruct (letter_mapper_returns_a_letter_of_the_word "CAT" 1 "scatter" _
              letter t' ltac:(by vm_compute) Hletter) as (s & -> & Hs & _).
  exists s. split; [|done].
  vm_compute in Hletter. injection Hletter as _ Ht. by rewrite Ht.
Defined.
